(** * gen-similar-text: lexeme transition model, lexer loop and generator

    A shallow embedding of [gen-similar-text.cpp] and the properties of its
    three parts: the [Distr] class (the transition model with its sampler),
    the input loop of [main] that feeds it, and the generation loop of
    [main] that walks it. *)

From Stdlib Require Import ZArith Ascii String List.
From Stdlib Require QArith.
From stdpp Require Import gmap strings list fin_maps.

Local Open Scope Z_scope.

(** ** Character classes

    The program never installs a locale, so [std::regex] and [operator>>]
    classify bytes with the classic "C" locale: only the ASCII letters,
    digits and punctuation marks belong to a class, and every byte above
    127 belongs to none. *)

Module Ctype.

Definition in_range (lo hi c : ascii) : bool :=
  ((N_of_ascii lo <=? N_of_ascii c) && (N_of_ascii c <=? N_of_ascii hi))%N.

Definition isdigit (c : ascii) : bool := in_range "0" "9" c.
Definition isupper (c : ascii) : bool := in_range "A" "Z" c.
Definition islower (c : ascii) : bool := in_range "a" "z" c.
Definition isalnum (c : ascii) : bool := isdigit c || isupper c || islower c.

(** [[:punct:]]: the four ASCII blocks of printable non-alphanumerics. *)
Definition ispunct (c : ascii) : bool :=
  in_range "!" "/" c || in_range ":" "@" c ||
  in_range "[" "`" c || in_range "{" "~" c.

(** Space, and tab to carriage return (9 to 13). *)
Definition isspace (c : ascii) : bool :=
  Ascii.eqb c " " || in_range (ascii_of_nat 9) (ascii_of_nat 13) c.

(** [[:w:]]: alphanumeric or underscore. *)
Definition isword (c : ascii) : bool := isalnum c || Ascii.eqb c "_".

End Ctype.

(** ** Regular expressions

    The fragment of ECMAScript regular expressions the program uses, with
    the backtracking semantics of [std::regex]: an alternation prefers its
    left branch, [+] is greedy, and the first success in that order is the
    match. *)

Module Regex.

Inductive regex : Type :=
| Bracket (p : ascii → bool)
| Cat (r1 r2 : regex)
| Alt (r1 r2 : regex)
| Plus (r : regex)
| Bol
| Eol.

(** A position in the target: how many characters lie before it, and the
    characters from it on. *)
Definition cursor : Type := nat * list ascii.

(** All the positions at which a match of [r] started at [c] can end, in
    the order in which the backtracking matcher reaches them. *)
Fixpoint ends (r : regex) (c : cursor) : list cursor :=
  match r with
  | Bracket p =>
      match c.2 with
      | a :: t => if p a then [(S c.1, t)] else []
      | [] => []
      end
  | Cat r1 r2 => flat_map (ends r2) (ends r1 c)
  | Alt r1 r2 => ends r1 c ++ ends r2 c
  | Plus r1 =>
      (fix loop (fuel : nat) (c0 : cursor) {struct fuel} : list cursor :=
         flat_map (λ c1, match fuel with
                         | S f => loop f c1
                         | O => []
                         end ++ [c1]) (ends r1 c0))
        (length c.2) c
  | Bol => if Nat.eqb c.1 0 then [c] else []
  | Eol => match c.2 with [] => [c] | _ :: _ => [] end
  end.

(** [std::regex_search] on the target from [c] on: the leftmost start at
    which [r] matches; the result is the number of characters skipped
    before the match and the length of the match. *)
Fixpoint regex_search (r : regex) (pos : nat) (s : list ascii)
  : option (nat * nat) :=
  match ends r (pos, s) with
  | e :: _ => Some (0%nat, (e.1 - pos)%nat)
  | [] =>
      match s with
      | [] => None
      | _ :: t =>
          match regex_search r (S pos) t with
          | Some (k, n) => Some (S k, n)
          | None => None
          end
      end
  end.

(** [std::sregex_token_iterator] over whole matches: the successive
    matches of [r], each search resuming where the previous match ended.
    No pattern of the program matches the empty string, so every match
    consumes a character and the length of the target bounds the number
    of matches. *)
Fixpoint tokens_from (fuel : nat) (r : regex) (pos : nat) (s : list ascii)
  : list string :=
  match fuel with
  | O => []
  | S f =>
      match regex_search r pos s with
      | None => []
      | Some (k, n) =>
          let s' := drop k s in
          string_of_list_ascii (take n s')
            :: tokens_from f r (pos + k + n)%nat (drop n s')
      end
  end.

Definition sregex_tokens (r : regex) (s : string) : list string :=
  tokens_from (String.length s) r 0 (list_ascii_of_string s).

End Regex.

(** ** Constants of the program *)

Definition kSoftLexLimit : Z := 500.
Definition kStartingLex : string := ".".
Definition kTerminatorLex : string := kStartingLex.

(** ** The lexer's patterns *)

Module Lexer.
Import Regex.

Definition w : regex := Bracket Ctype.isword.
Definition dot : regex := Bracket (Ascii.eqb ".").

(** ["([[:w:]]+[-'][[:w:]]+)|([[:w:]]+)|([.]{3})|([[:punct:]])"] *)
Definition lexRx : regex :=
  Alt (Cat (Plus w)
         (Cat (Bracket (λ c, Ascii.eqb c "-" || Ascii.eqb c "'")) (Plus w)))
    (Alt (Plus w)
       (Alt (Cat dot (Cat dot dot))
          (Bracket Ctype.ispunct))).

(** The lexemes of one whitespace-delimited chunk. *)
Definition lex_chunk (chunk : string) : list string :=
  sregex_tokens lexRx chunk.

(** ["^(([.]{3})|[[:punct:]])$"] *)
Definition punctRx : regex :=
  Cat Bol (Cat (Alt (Cat dot (Cat dot dot)) (Bracket Ctype.ispunct)) Eol).

Definition is_punctation (lex : string) : bool :=
  match regex_search punctRx 0 (list_ascii_of_string lex) with
  | Some _ => true
  | None => false
  end.

(** [in >> chunk], repeated until it fails: the maximal runs of
    non-whitespace characters of the input, in order. *)
Fixpoint split_ws (cur : list ascii) (s : list ascii) : list string :=
  match s with
  | [] =>
      match cur with
      | [] => []
      | _ :: _ => [string_of_list_ascii (rev cur)]
      end
  | c :: t =>
      if Ctype.isspace c then
        match cur with
        | [] => split_ws [] t
        | _ :: _ => string_of_list_ascii (rev cur) :: split_ws [] t
        end
      else split_ws (c :: cur) t
  end.

Definition chunks (text : string) : list string :=
  split_ws [] (list_ascii_of_string text).

End Lexer.

(** ** Outcomes

    [ERR] prints a message and calls [abort ()]; an operation whose
    behaviour the language leaves undefined (dereferencing an end
    iterator, an out-of-range [operator[]], a distribution built with
    [b < a], signed overflow) is kept apart from it. *)

Inductive outcome (A : Type) : Type :=
| Ok (a : A)
| Abort
| Undefined.
Arguments Ok {A} a.
Arguments Abort {A}.
Arguments Undefined {A}.

(** ** Machine integers *)

Definition INT_MAX : Z := 2 ^ 31 - 1.

(** Conversion of a [size_t] to [int]: reduction modulo [2^32] into the
    signed range. *)
Definition to_int (z : Z) : Z := (z + 2 ^ 31) mod 2 ^ 32 - 2 ^ 31.

(** ** Random numbers

    [std::uniform_int_distribution<>] is a pair of [int] bounds; applied to
    an engine it yields an integer of the closed range between them. The
    algorithm that turns the engine's raw words into that integer belongs
    to the standard library, and enters here as an interface. *)

Record uniform_int_distribution : Type :=
  { dist_a : Z; dist_b : Z }.

Class Engine (G : Type) : Type :=
  { uniform_int : uniform_int_distribution → G → Z * G;
    uniform_int_range dd g :
      dist_a dd ≤ dist_b dd →
      dist_a dd ≤ (uniform_int dd g).1 ≤ dist_b dd }.

(** An engine that replays a recorded list of raw values, for concrete
    runs. *)
Definition replay (dd : uniform_int_distribution) (g : list Z) : Z * list Z :=
  match g with
  | [] => (dist_a dd, [])
  | r :: g' => (dist_a dd + r mod (dist_b dd - dist_a dd + 1), g')
  end.

#[export] Program Instance replay_engine : Engine (list Z) :=
  {| uniform_int := replay |}.
Next Obligation.
  intros dd [|r g] Hab; simpl; [lia|].
  pose proof (Z.mod_pos_bound r (dist_b dd - dist_a dd + 1)). lia.
Qed.

(** The values a distribution object can yield, each with the same
    probability. *)
Definition support (dd : uniform_int_distribution) : list Z :=
  seqZ (dist_a dd) (dist_b dd - dist_a dd + 1).

(** Probability that a draw from [dd] satisfies [ev]: favourable values
    over all values of the support. *)
Definition Pr (dd : uniform_int_distribution) (ev : Z → bool)
  : QArith_base.Q :=
  QArith_base.Qmake
    (Z.of_nat (length (filter (λ i, ev i = true) (support dd))))
    (Pos.of_nat (length (support dd))).

(** ** The transition model: class [Distr] *)

(** [try_emplace]: insert [v] under [k] unless [k] is already a key. *)
Definition try_emplace `{Countable K} {V : Type} (k : K) (v : V)
    (m : gmap K V) : gmap K V :=
  match m !! k with
  | Some _ => m
  | None => <[k := v]> m
  end.

(** [operator[]] of a vector at an [int] index; [None] outside the
    vector. *)
Definition vector_at {A : Type} (v : list A) (idx : Z) : option A :=
  if idx <? 0 then None else v !! Z.to_nat idx.

(** The map [m_model] owns each lexeme string once, as a key. Its values
    hold pointers to keys; keys of an [unordered_map] never move and the
    program never erases one, so a pointer is modelled by the key it
    points to. *)
Record Distr (G : Type) : Type :=
  { m_model : gmap string (list string);
    m_uniform_sitribution_states : gmap Z uniform_int_distribution;
    m_gen : G }.
Arguments m_model {G} d.
Arguments m_uniform_sitribution_states {G} d.
Arguments m_gen {G} d.

Section Distr.
Context {G : Type} `{!Engine G}.

Definition Distr_init (g : G) : Distr G :=
  {| m_model := ∅; m_uniform_sitribution_states := ∅; m_gen := g |}.

Definition set_model (d : Distr G) (m : gmap string (list string))
  : Distr G :=
  {| m_model := m;
     m_uniform_sitribution_states := m_uniform_sitribution_states d;
     m_gen := m_gen d |}.

Definition uniqueLexCount (d : Distr G) : nat := size (m_model d).

(** [add] on the map: an entry for [nextLex] unless there is one, an
    entry for [curLex] unless there is one, and the pointer to the key
    [nextLex] pushed at the back of the entry of [curLex]. *)
Definition model_add (curLex nextLex : string)
    (m : gmap string (list string)) : gmap string (list string) :=
  let nextLexPtr := nextLex in
  alter (λ successors, successors ++ [nextLexPtr]) curLex
    (try_emplace curLex [] (try_emplace nextLex [] m)).

Definition add (curLex nextLex : string) (d : Distr G)
  : string * Distr G :=
  (nextLex, set_model d (model_add curLex nextLex (m_model d))).

(** [m_model[curLex]] inserts an empty entry for a lexeme that has none.
    [size - 1] is a [size_t]; the key of the cache and the upper bound of
    the distribution are [int]s. Applying a distribution requires
    [a <= b]. On [Abort] the state returned is the one in which [abort ()]
    is called. *)
Definition nextLex (curLex : string) (d : Distr G)
  : outcome string * Distr G :=
  let d1 := set_model d (try_emplace curLex [] (m_model d)) in
  let distrData := default [] (m_model d1 !! curLex) in
  let size := Z.of_nat (length distrData) in
  if size =? 0 then (Abort, d1)
  else
    let key := to_int (size - 1) in
    let states :=
      try_emplace key {| dist_a := 0; dist_b := to_int (size - 1) |}
        (m_uniform_sitribution_states d1) in
    match states !! key with
    | None => (Undefined, d1)
    | Some dd =>
        if dist_b dd <? dist_a dd then (Undefined, d1)
        else
          let '(idx, g) := uniform_int dd (m_gen d1) in
          let d2 := {| m_model := m_model d1;
                       m_uniform_sitribution_states := states;
                       m_gen := g |} in
          match vector_at distrData idx with
          | Some lexPtr => (Ok lexPtr, d2)
          | None => (Undefined, d2)
          end
    end.

(** The states of a [Distr] object that calls of its methods can
    produce. *)
Inductive reachable : Distr G → Prop :=
| reachable_init g : reachable (Distr_init g)
| reachable_add curLex lex d :
    reachable d → reachable (add curLex lex d).2
| reachable_nextLex curLex d :
    reachable d → reachable (nextLex curLex d).2.

(** A sequence of [add] calls, each given as (predecessor, successor). *)
Definition add_all (calls : list (string * string)) (d : Distr G)
  : Distr G :=
  foldl (λ d0 c, (add c.1 c.2 d0).2) d calls.

End Distr.

(** The pairs of neighbours of the sequence [prev :: ls]: each lexeme of
    [ls] with the one before it. *)
Fixpoint adjacent (prev : string) (ls : list string)
  : list (string * string) :=
  match ls with
  | [] => []
  | l :: ls' => (prev, l) :: adjacent l ls'
  end.

(** The linking rule in the words of the specification, over the lexeme
    lists of the chunks: within a chunk each lexeme follows the one before
    it; the first lexeme of a chunk follows [prev], the last lexeme of the
    most recent chunk that had one, and the starting lexeme before any. *)
Fixpoint linked_pairs (prev : string) (css : list (list string))
  : list (string * string) :=
  match css with
  | [] => []
  | toks :: css' =>
      adjacent prev toks ++ linked_pairs (default prev (last toks)) css'
  end.

(** Every cached distribution object has the bounds under which it was
    stored: [0] and its key. *)
Definition cache_wf (states : gmap Z uniform_int_distribution) : Prop :=
  ∀ key dd, states !! key = Some dd → dd = {| dist_a := 0; dist_b := key |}.

(** Every pointer stored in a successor sequence points to a key of the
    model. *)
Definition closed (m : gmap string (list string)) : Prop :=
  ∀ k S lex, m !! k = Some S → lex ∈ S → is_Some (m !! lex).

(** The UTF-8 encoding of an em dash (U+2014): three bytes above 127. *)
Definition em_dash : string :=
  String (ascii_of_nat 226)
    (String (ascii_of_nat 128) (String (ascii_of_nat 148) EmptyString)).

(** The text made of [n] times the word "a", a space after each. *)
Fixpoint long_text (n : nat) : string :=
  match n with
  | O => EmptyString
  | S n' => String "a" (String " " (long_text n'))
  end.

(** ** [main]: reading the input *)

Import Lexer.

Section Main.
Context {G : Type} `{!Engine G}.

(** The variables of [main] that live across chunks; a null pointer is
    [None]. [add_calls] is a history variable, which the program does not
    have: the arguments of the calls of [distr.add] made so far, each a
    lexeme with the predecessor it was given. *)
Record input_state : Type :=
  { distr : Distr G;
    prevChunkLastLexStrPtr : option string;
    lastLexStrPtr : option string;
    add_calls : list (string * string) }.

(** The inner [for] loop over the token iterator [it] of one chunk. It has
    no loop condition: its body runs before [it] is first compared with
    the end iterator, and reads [*it]. *)
Fixpoint chunk_loop (it : list string) (prevIt : option string)
    (st : input_state) : outcome input_state :=
  match it with
  | [] => Undefined
  | tok :: it' =>
      let curLex :=
        match prevChunkLastLexStrPtr st with
        | Some p => p
        | None =>
            match prevIt with
            | None => kStartingLex
            | Some prev => prev
            end
        end in
      let '(ptr, d) := add curLex tok (distr st) in
      let calls := add_calls st ++ [(curLex, tok)] in
      match it' with
      | [] =>
          Ok {| distr := d;
                prevChunkLastLexStrPtr := Some ptr;
                lastLexStrPtr := Some ptr;
                add_calls := calls |}
      | _ :: _ =>
          chunk_loop it' (Some tok)
            {| distr := d;
               prevChunkLastLexStrPtr := None;
               lastLexStrPtr := Some ptr;
               add_calls := calls |}
      end
  end.

(** The outer [while (in >> chunk)] loop. *)
Fixpoint read_chunks (cs : list string) (st : input_state)
  : outcome input_state :=
  match cs with
  | [] => Ok st
  | chunk :: cs' =>
      match chunk_loop (lex_chunk chunk) None st with
      | Ok st' => read_chunks cs' st'
      | Abort => Abort
      | Undefined => Undefined
      end
  end.

Definition input_init (g : G) : input_state :=
  {| distr := Distr_init g;
     prevChunkLastLexStrPtr := None;
     lastLexStrPtr := None;
     add_calls := [] |}.

(** The input phase of [main] on the contents [text] of the file, [g]
    being the state in which the engine was seeded. *)
Definition main_input (text : string) (g : G) : outcome input_state :=
  read_chunks (chunks text) (input_init g).

(** All the lexemes of a text, chunk after chunk. *)
Definition lexemes (text : string) : list string :=
  concat (map lex_chunk (chunks text)).

(** ** [main]: generating *)

(** What [OUT] writes: a lexeme, a space, or the end of the line. *)
Inductive out_item : Type :=
| OLex (lex : string)
| OSpace
| OEndl.

Record gen_state : Type :=
  { g_distr : Distr G;
    g_lex : string;
    g_i : Z;
    g_out : list out_item }.

Inductive run : Type :=
| Running (st : gen_state)
| Stopped (st : gen_state)
| Aborted (out : list out_item) (d : Distr G)
| RunUndefined.

(** One turn of the [while (true)] loop. The counter is an [int]: [++i]
    and the [i++] before [break] overflow at [INT_MAX]. *)
Definition gen_step (st : gen_state) : run :=
  let out1 := g_out st ++ [OLex (g_lex st)] in
  match nextLex (g_lex st) (g_distr st) with
  | (Abort, d) => Aborted out1 d
  | (Undefined, _) => RunUndefined
  | (Ok lex, d) =>
      let out2 := if is_punctation lex then out1 else out1 ++ [OSpace] in
      if g_i st =? INT_MAX then RunUndefined
      else
        let i := g_i st + 1 in
        if (kSoftLexLimit <? i) && String.eqb lex kTerminatorLex then
          if i =? INT_MAX then RunUndefined
          else
            Stopped {| g_distr := d; g_lex := lex; g_i := i + 1;
                       g_out := out2 ++ [OLex lex; OEndl] |}
        else
          Running {| g_distr := d; g_lex := lex; g_i := i; g_out := out2 |}
  end.

(** At most [fuel] turns of the loop. *)
Fixpoint gen_loop (fuel : nat) (st : gen_state) : run :=
  match fuel with
  | O => Running st
  | S fuel' =>
      match gen_step st with
      | Running st' => gen_loop fuel' st'
      | r => r
      end
  end.

(** The generation phase of [main]; [None] when it returns early because
    the model is empty. *)
Definition main_generate (fuel : nat) (d : Distr G) : option run :=
  if Nat.eqb (uniqueLexCount d) 0 then None
  else
    match nextLex kStartingLex d with
    | (Ok lex, d') =>
        Some (gen_loop fuel
                {| g_distr := d'; g_lex := lex; g_i := 0; g_out := [] |})
    | (Abort, d') => Some (Aborted [] d')
    | (Undefined, _) => Some RunUndefined
    end.

(** The lexemes written so far, and the text written so far. *)
Definition out_lexemes (out : list out_item) : list string :=
  omap (λ o, match o with OLex lex => Some lex | _ => None end) out.

Definition render_item (o : out_item) : string :=
  match o with
  | OLex lex => lex
  | OSpace => " "
  | OEndl => String (ascii_of_nat 10) EmptyString
  end.

Definition render (out : list out_item) : string :=
  foldr (λ o s, String.append (render_item o) s) EmptyString out.

(** All the lexemes drawn so far: those already written, then the current
    one. Its element [k] is the lexeme drawn in turn [k] of the loop, the
    element [0] the one drawn before the loop. *)
Definition history (st : gen_state) : list string :=
  out_lexemes (g_out st) ++ [g_lex st].

(** What the turns made so far have established: the counter counts the
    lexemes written, and no draw made after the counter passed the limit
    gave the terminator. *)
Definition gen_inv (st : gen_state) : Prop :=
  g_i st = Z.of_nat (length (out_lexemes (g_out st))) ∧
  ∀ k : nat, kSoftLexLimit < Z.of_nat k ≤ g_i st →
    history st !! k ≠ Some kTerminatorLex.

(** The model a run ends with, when it ends in a defined way. *)
Definition run_model (r : run) : option (gmap string (list string)) :=
  match r with
  | Running st | Stopped st => Some (m_model (g_distr st))
  | Aborted _ d => Some (m_model d)
  | RunUndefined => None
  end.

End Main.

(** ** Vocabulary of the further properties *)

(** The successors passed along with the predecessor [k] in a sequence of
    [add] calls, in the order of the calls. *)
Definition successors_in (k : string) (calls : list (string * string))
  : list string :=
  (filter (λ c, c.1 = k) calls).*2.

(** How many of the two arguments of an [add] call are new keys. *)
Definition new_keys (curLex lex : string) (m : gmap string (list string))
  : nat :=
  ((if decide (is_Some (m !! lex)) then 0 else 1) +
   (if decide (is_Some (m !! curLex) ∨ curLex = lex) then 0 else 1))%nat.

(** The layout of a sequence of lexemes: the first lexeme, and then every
    further lexeme, after a space unless it is punctuation. *)
Definition format_rest (ls : list string) : list out_item :=
  flat_map (λ l, if is_punctation l then [OLex l] else [OSpace; OLex l]) ls.

Definition format (ls : list string) : list out_item :=
  match ls with
  | [] => []
  | l :: ls' => OLex l :: format_rest ls'
  end.

(** The characters a regular expression can consume, and whether each of
    its matches consumes at least one. *)
Fixpoint consumes (r : Regex.regex) (a : ascii) : bool :=
  match r with
  | Regex.Bracket p => p a
  | Regex.Cat r1 r2 | Regex.Alt r1 r2 => consumes r1 a || consumes r2 a
  | Regex.Plus r1 => consumes r1 a
  | Regex.Bol | Regex.Eol => false
  end.

Fixpoint advances (r : Regex.regex) : bool :=
  match r with
  | Regex.Bracket _ => true
  | Regex.Cat r1 r2 => advances r1 || advances r2
  | Regex.Alt r1 r2 => advances r1 && advances r2
  | Regex.Plus r1 => advances r1
  | Regex.Bol | Regex.Eol => false
  end.

(** Where a run of word characters ends: at the end of the target or
    before a character that is no word character. And where a hyphen or
    an apostrophe joins it to a further word: when either is followed by
    a word character. *)
Definition word_ends (rest : list ascii) : bool :=
  match rest with
  | [] => true
  | a :: _ => negb (Ctype.isword a)
  end.

Definition joins (rest : list ascii) : bool :=
  match rest with
  | a :: b :: _ => (Ascii.eqb a "-" || Ascii.eqb a "'") && Ctype.isword b
  | _ => false
  end.

(** Whether the target starts with three periods. *)
Definition three_dots (s : list ascii) : bool :=
  match s with
  | a :: b :: c :: _ => Ascii.eqb "." a && Ascii.eqb "." b && Ascii.eqb "." c
  | _ => false
  end.

Section RunVocabulary.
Context {G : Type} `{!Engine G}.

(** The lexemes a run has drawn, and what it has written together with
    the lexeme it is about to write. *)
Definition run_lexemes (r : @run G) : list string :=
  match r with
  | Running st => history st
  | Stopped st => out_lexemes (g_out st)
  | Aborted out _ => out_lexemes out
  | RunUndefined => []
  end.

Definition run_output (r : @run G) : list out_item :=
  match r with
  | Running st => g_out st ++ [OLex (g_lex st)]
  | Stopped st => g_out st
  | Aborted out _ => out
  | RunUndefined => []
  end.

(** The lexemes that successive calls of [nextLex] return, at most [n] of
    them: the first call is made on [curLex] and each further call on the
    lexeme the call before it returned; the sequence ends with the first
    call that does not return a lexeme. *)
Fixpoint draws (n : nat) (curLex : string) (d : Distr G) : list string :=
  match n with
  | O => []
  | S n' =>
      match nextLex curLex d with
      | (Ok lex, d') => lex :: draws n' lex d'
      | _ => []
      end
  end.

End RunVocabulary.

(** * Properties *)

(** ** The lexer on examples *)

Example lex_chunk_apostrophe : lex_chunk "don't" = ["don't"].
Proof. reflexivity. Qed.

Example lex_chunk_hyphens : lex_chunk "rock-n-roll" = ["rock-n"; "-"; "roll"].
Proof. reflexivity. Qed.

Example lex_chunk_ellipsis : lex_chunk "wait...." = ["wait"; "..."; "."].
Proof. reflexivity. Qed.

Example lex_chunk_underscore : lex_chunk "_x, y" = ["_x"; ","; "y"].
Proof. reflexivity. Qed.

Example lex_chunk_skips_bytes :
  lex_chunk ("caf" +:+ em_dash +:+ "!") = ["caf"; "!"].
Proof. reflexivity. Qed.

Example chunks_whitespace :
  chunks (" a  b" +:+ String (ascii_of_nat 10) "c.d ") = ["a"; "b"; "c.d"].
Proof. reflexivity. Qed.

Example is_punctation_examples :
  is_punctation <$> ["."; "..."; ","; "_"; "a"; ".."; "a."]
    = [true; true; true; true; false; false; false].
Proof. reflexivity. Qed.

(** ** Maps *)

Lemma lookup_try_emplace `{Countable K} {V : Type} (k j : K) (v : V)
    (m : gmap K V) :
  try_emplace k v m !! j =
    match m !! j with
    | Some x => Some x
    | None => if decide (k = j) then Some v else None
    end.
Proof.
  unfold try_emplace. destruct (m !! k) eqn:Ek.
  - destruct (m !! j) eqn:Ej; [done|].
    case_decide; [subst; congruence | done].
  - rewrite lookup_insert. case_decide; subst.
    + by rewrite Ek.
    + by destruct (m !! j).
Qed.

Lemma try_emplace_present `{Countable K} {V : Type} (k : K) (v : V)
    (m : gmap K V) :
  is_Some (m !! k) → try_emplace k v m = m.
Proof. intros [x Hx]. unfold try_emplace. by rewrite Hx. Qed.

Lemma try_emplace_absent `{Countable K} {V : Type} (k : K) (v : V)
    (m : gmap K V) :
  m !! k = None → try_emplace k v m = <[k := v]> m.
Proof. intros Hk. unfold try_emplace. by rewrite Hk. Qed.

Section ModelFacts.
Context {G : Type} `{!Engine G}.
Implicit Types (m : gmap string (list string)) (d : Distr G).

Lemma lookup_model_add curLex lex m k :
  model_add curLex lex m !! k =
    if decide (k = curLex) then Some (default [] (m !! curLex) ++ [lex])
    else if decide (k = lex) then Some (default [] (m !! lex))
    else m !! k.
Proof.
  unfold model_add. rewrite lookup_alter, !lookup_try_emplace.
  repeat case_decide; subst; try congruence; simpl;
    repeat match goal with |- context [m !! ?x] => destruct (m !! x) end;
    simpl; repeat case_decide; try congruence; done.
Qed.

Lemma add_all_snoc calls c d :
  add_all (calls ++ [c]) d = (add c.1 c.2 (add_all calls d)).2.
Proof. unfold add_all. by rewrite foldl_app. Qed.

Lemma add_grows curLex lex d k S :
  m_model d !! k = Some S →
  ∃ S', m_model (add curLex lex d).2 !! k = Some (S ++ S').
Proof.
  intros Hk. simpl. rewrite lookup_model_add.
  destruct (decide (k = curLex)) as [->|];
    [|destruct (decide (k = lex)) as [->|]]; rewrite ?Hk; simpl.
  - by exists [lex].
  - exists []. by rewrite app_nil_r.
  - exists []. by rewrite app_nil_r.
Qed.

Lemma add_all_grows calls d k S :
  m_model d !! k = Some S →
  ∃ S', m_model (add_all calls d) !! k = Some (S ++ S').
Proof.
  induction calls as [|c calls IH] using rev_ind; intros Hk.
  - exists []. by rewrite app_nil_r.
  - destruct (IH Hk) as [S1 H1]. rewrite add_all_snoc.
    destruct (add_grows c.1 c.2 _ _ _ H1) as [S2 H2].
    exists (S1 ++ S2). by rewrite app_assoc.
Qed.

Lemma add_registers curLex lex d :
  is_Some (m_model (add curLex lex d).2 !! curLex) ∧
  is_Some (m_model (add curLex lex d).2 !! lex).
Proof.
  simpl. rewrite !lookup_model_add.
  split; repeat case_decide; eauto; congruence.
Qed.

Lemma dom_model_add curLex lex m :
  dom (model_add curLex lex m) = {[curLex; lex]} ∪ dom m.
Proof.
  apply set_eq. intros k.
  rewrite elem_of_union, !elem_of_dom, lookup_model_add.
  rewrite elem_of_union, !elem_of_singleton.
  repeat case_decide; subst; split; eauto; intros [[|]|]; eauto; done.
Qed.

End ModelFacts.

(** ** The input loop *)

Lemma linked_pairs_adjacent prev css :
  linked_pairs prev css = adjacent prev (concat css).
Proof.
  revert prev. induction css as [|toks css IH]; intros prev; [done|].
  cbn [linked_pairs concat]. rewrite IH. clear IH. revert prev.
  induction toks as [|l toks IH]; intros prev; [done|].
  cbn [adjacent app]. f_equal. rewrite <-IH. do 2 f_equal.
  destruct toks as [|l' toks]; [done|].
  rewrite (last_cons_cons l l' toks).
  destruct (last (l' :: toks)) eqn:El; [done|]. by apply last_None in El.
Qed.

Lemma adjacent_snd prev ls : (adjacent prev ls).*2 = ls.
Proof.
  revert prev. induction ls as [|l ls IH]; intros prev; [done|].
  cbn. by rewrite IH.
Qed.

Lemma adjacent_fst prev ls :
  (adjacent prev ls).*1 = take (length ls) (prev :: ls).
Proof.
  revert prev. induction ls as [|l ls IH]; intros prev; [done|].
  cbn. by rewrite IH.
Qed.

Lemma adjacent_app prev ls1 ls2 :
  adjacent prev (ls1 ++ ls2) =
    adjacent prev ls1 ++ adjacent (default prev (last ls1)) ls2.
Proof.
  revert prev. induction ls1 as [|l ls1 IH]; intros prev; [done|].
  simpl. rewrite IH. do 2 f_equal.
  destruct ls1 as [|l' ls1]; [done|].
  rewrite (last_cons_cons l l' ls1).
  destruct (last (l' :: ls1)) eqn:El; [done|]. by apply last_None in El.
Qed.

Section InputFacts.
Context {G : Type} `{!Engine G}.
Implicit Types (st : @input_state G) (d : Distr G) (g : G).

Lemma add_all_app calls1 calls2 d :
  add_all (calls1 ++ calls2) d = add_all calls2 (add_all calls1 d).
Proof. unfold add_all. by rewrite foldl_app. Qed.

Lemma chunk_loop_cons tok it' prevIt st :
  chunk_loop (tok :: it') prevIt st =
    let curLex :=
      default (default kStartingLex prevIt) (prevChunkLastLexStrPtr st) in
    let d := (add curLex tok (distr st)).2 in
    let calls := add_calls st ++ [(curLex, tok)] in
    match it' with
    | [] =>
        Ok {| distr := d;
              prevChunkLastLexStrPtr := Some tok;
              lastLexStrPtr := Some tok;
              add_calls := calls |}
    | _ :: _ =>
        chunk_loop it' (Some tok)
          {| distr := d;
             prevChunkLastLexStrPtr := None;
             lastLexStrPtr := Some tok;
             add_calls := calls |}
    end.
Proof. by destruct it', st as [? [?|] ? ?], prevIt. Qed.

(** A chunk with at least one lexeme: the loop links the first lexeme to
    the last lexeme of the previous chunk (or to the starting lexeme when
    there is none), and every other lexeme to the one before it. *)
Lemma chunk_loop_Ok it prevIt st :
  it ≠ [] →
  let calls :=
    adjacent (default (default kStartingLex prevIt)
                (prevChunkLastLexStrPtr st)) it in
  chunk_loop it prevIt st =
    Ok {| distr := add_all calls (distr st);
          prevChunkLastLexStrPtr := last it;
          lastLexStrPtr := last it;
          add_calls := add_calls st ++ calls |}.
Proof.
  revert prevIt st. induction it as [|tok it' IH]; intros prevIt st Hne;
    [done|].
  rewrite chunk_loop_cons. destruct it' as [|tok' it'']; [done|].
  cbv zeta. rewrite IH by done.
  cbn [distr prevChunkLastLexStrPtr add_calls default].
  by rewrite (last_cons_cons tok tok' it''), <-app_assoc.
Qed.

Lemma read_chunks_spec cs st :
  (Forall (λ c, lex_chunk c ≠ []) cs ∧
   ∃ st', read_chunks cs st = Ok st' ∧
     let calls :=
       adjacent (default kStartingLex (prevChunkLastLexStrPtr st))
         (concat (lex_chunk <$> cs)) in
     distr st' = add_all calls (distr st) ∧
     add_calls st' = add_calls st ++ calls)
  ∨ (Exists (λ c, lex_chunk c = []) cs ∧ read_chunks cs st = Undefined).
Proof.
  revert st. induction cs as [|c cs IH]; intros st.
  { left. split; [constructor|]. exists st. split; [done|].
    cbn. by rewrite app_nil_r. }
  cbn [read_chunks fmap list_fmap concat].
  destruct (lex_chunk c) as [|tok toks] eqn:Ec.
  { right. split; [by left|done]. }
  rewrite chunk_loop_Ok by done.
  match goal with |- context [read_chunks cs ?s] => set (st1 := s) end.
  destruct (IH st1) as [[Hall (st' & Hrun & Hd & Hc)]|[Hex Hrun]].
  - left. split; [constructor; [by rewrite Ec|done]|].
    exists st'. split; [done|]. cbv zeta. rewrite Hd, Hc. subst st1.
    cbn [distr prevChunkLastLexStrPtr add_calls].
    rewrite adjacent_app, add_all_app, <-app_assoc.
    by destruct (last (tok :: toks)) eqn:El;
      [|apply last_None in El].
  - right. split; [by right|done].
Qed.

Lemma main_input_Ok text g st :
  main_input text g = Ok st →
  Forall (λ c, lex_chunk c ≠ []) (chunks text) ∧
  distr st = add_all (adjacent kStartingLex (lexemes text)) (Distr_init g).
Proof.
  unfold main_input. intros Hrun.
  destruct (read_chunks_spec (chunks text) (input_init g))
    as [[Hall (st' & Hrun' & Hd & _)]|[_ Hrun']]; [|congruence].
  rewrite Hrun in Hrun'. by injection Hrun' as <-.
Qed.

Lemma main_input_calls text g st :
  main_input text g = Ok st →
  add_calls st = adjacent kStartingLex (lexemes text).
Proof.
  unfold main_input. intros Hrun.
  destruct (read_chunks_spec (chunks text) (input_init g))
    as [[Hall (st' & Hrun' & _ & Hc)]|[_ Hrun']]; [|congruence].
  rewrite Hrun in Hrun'. by injection Hrun' as <-.
Qed.

Lemma main_input_completes text g :
  Forall (λ c, lex_chunk c ≠ []) (chunks text) →
  ∃ st, main_input text g = Ok st.
Proof.
  unfold main_input. intros Hall.
  destruct (read_chunks_spec (chunks text) (input_init g))
    as [[_ (st' & Hrun' & _)]|[Hex _]]; [by exists st'|].
  apply Exists_exists in Hex as (c & Hc & Hempty).
  by eapply Forall_forall in Hall.
Qed.

Lemma main_input_Undefined text g :
  Exists (λ c, lex_chunk c = []) (chunks text) →
  main_input text g = Undefined.
Proof.
  unfold main_input. intros Hex.
  destruct (read_chunks_spec (chunks text) (input_init g))
    as [[Hall _]|[_ Hrun']]; [|done].
  apply Exists_exists in Hex as (c & Hc & Hempty).
  by eapply Forall_forall in Hall.
Qed.

Lemma dom_add_all calls d :
  dom (m_model (add_all calls d)) =
    dom (m_model d) ∪ list_to_set calls.*1 ∪ list_to_set calls.*2.
Proof.
  induction calls as [|c calls IH] using rev_ind.
  - simpl. set_solver.
  - rewrite add_all_snoc. cbn [add snd set_model m_model].
    rewrite dom_model_add, IH, !fmap_app, !list_to_set_app_L. simpl.
    set_solver.
Qed.

Lemma adjacent_elements prev ls :
  ls ≠ [] →
  list_to_set (adjacent prev ls).*1 ∪ list_to_set (adjacent prev ls).*2
    =@{gset string} {[prev]} ∪ list_to_set ls.
Proof.
  revert prev. induction ls as [|l ls IH]; intros prev Hne; [done|].
  destruct ls as [|l' ls].
  - simpl. set_solver.
  - specialize (IH l). cbn [adjacent fmap list_fmap list_to_set fst snd] in *.
    set_solver.
Qed.

Lemma size_list_to_set_remove_dups (ls : list string) :
  size (list_to_set ls : gset string) = length (remove_dups ls).
Proof.
  rewrite <-(size_list_to_set (C := gset string) (remove_dups ls))
    by apply NoDup_remove_dups.
  f_equal. apply set_eq. intros x.
  by rewrite !elem_of_list_to_set, elem_of_remove_dups.
Qed.

End InputFacts.

(** ** The sampler *)

Lemma to_int_small z : - 2 ^ 31 ≤ z < 2 ^ 31 → to_int z = z.
Proof. intros Hz. unfold to_int. rewrite Z.mod_small; lia. Qed.

Lemma vector_at_Some {A : Type} (v : list A) idx x :
  vector_at v idx = Some x → 0 ≤ idx < Z.of_nat (length v) ∧ x ∈ v.
Proof.
  unfold vector_at. destruct (Z.ltb_spec idx 0); [done|]. intros Hx.
  split; [|by eapply list_elem_of_lookup_2].
  apply lookup_lt_Some in Hx. lia.
Qed.

Lemma vector_at_in_range {A : Type} (v : list A) idx :
  0 ≤ idx < Z.of_nat (length v) → is_Some (vector_at v idx).
Proof.
  intros Hidx. unfold vector_at. destruct (Z.ltb_spec idx 0); [lia|].
  apply lookup_lt_is_Some. lia.
Qed.

Section SamplerFacts.
Context {G : Type} `{!Engine G}.
Implicit Types (d : Distr G) (g : G).

Lemma set_model_same d : set_model d (m_model d) = d.
Proof. by destruct d. Qed.

Lemma nextLex_unknown curLex d :
  m_model d !! curLex = None →
  nextLex curLex d = (Abort, set_model d (<[curLex := []]> (m_model d))).
Proof.
  intros Hk. unfold nextLex. rewrite (try_emplace_absent _ _ _ Hk).
  unfold set_model at 1. cbn [m_model]. rewrite lookup_insert_eq.
  reflexivity.
Qed.

Lemma nextLex_exhausted curLex d :
  m_model d !! curLex = Some [] → nextLex curLex d = (Abort, d).
Proof.
  intros Hk. unfold nextLex. rewrite try_emplace_present by eauto.
  by rewrite set_model_same, Hk.
Qed.

(** The call on a lexeme with recorded successors, the lookup of the
    model and the test of [size] carried out. *)
Lemma nextLex_known curLex d S :
  m_model d !! curLex = Some S → S ≠ [] →
  let key := to_int (Z.of_nat (length S) - 1) in
  let fresh := {| dist_a := 0; dist_b := key |} in
  let dd := default fresh (m_uniform_sitribution_states d !! key) in
  nextLex curLex d =
    if dist_b dd <? dist_a dd then (Undefined, d)
    else
      let d2 := {| m_model := m_model d;
                   m_uniform_sitribution_states :=
                     try_emplace key fresh (m_uniform_sitribution_states d);
                   m_gen := (uniform_int dd (m_gen d)).2 |} in
      match vector_at S (uniform_int dd (m_gen d)).1 with
      | Some lexPtr => (Ok lexPtr, d2)
      | None => (Undefined, d2)
      end.
Proof.
  intros Hk Hne. cbv zeta. unfold nextLex.
  rewrite try_emplace_present by eauto. rewrite set_model_same, Hk.
  cbn [default from_option id].
  destruct (Z.eqb_spec (Z.of_nat (length S)) 0) as [Hz|_].
  { destruct S; [done|simpl in Hz; lia]. }
  rewrite lookup_try_emplace.
  destruct (m_uniform_sitribution_states d !! _) as [dd|];
    cbn [default from_option id]; [|rewrite decide_True by done];
    (destruct (_ <? _); [by destruct d|]);
    by destruct (uniform_int _ _).
Qed.

Lemma nextLex_known_frame curLex d S :
  m_model d !! curLex = Some S → S ≠ [] →
  (nextLex curLex d).1 ≠ Abort ∧
  m_model (nextLex curLex d).2 = m_model d ∧
  ∀ lex, (nextLex curLex d).1 = Ok lex → lex ∈ S.
Proof.
  intros Hk Hne. rewrite (nextLex_known _ _ _ Hk Hne). cbv zeta.
  destruct (_ <? _); [done|].
  destruct (vector_at _ _) as [lexPtr|] eqn:Hv; [|done].
  split_and!; [done..|]. intros lex [= <-].
  by apply vector_at_Some in Hv as [_ ?].
Qed.

Lemma nextLex_Abort_iff curLex d :
  (nextLex curLex d).1 = Abort ↔
  m_model d !! curLex = None ∨ m_model d !! curLex = Some [].
Proof.
  destruct (m_model d !! curLex) as [[|lex S]|] eqn:Hk.
  - rewrite (nextLex_exhausted _ _ Hk). naive_solver.
  - destruct (nextLex_known_frame curLex d (lex :: S) Hk) as [Hna _];
      [done|]. naive_solver.
  - rewrite (nextLex_unknown _ _ Hk). naive_solver.
Qed.

Lemma reachable_cache_wf d :
  reachable d → cache_wf (m_uniform_sitribution_states d).
Proof.
  induction 1 as [g|curLex lex d _ IH|curLex d _ IH]; [done|done|].
  destruct (m_model d !! curLex) as [[|lex S]|] eqn:Hk.
  - by rewrite (nextLex_exhausted _ _ Hk).
  - rewrite (nextLex_known _ _ _ Hk) by done. cbv zeta.
    destruct (_ <? _); [done|].
    assert (cache_wf (try_emplace (to_int (Z.of_nat (length (lex :: S)) - 1))
      {| dist_a := 0; dist_b := to_int (Z.of_nat (length (lex :: S)) - 1) |}
      (m_uniform_sitribution_states d))) as Hwf.
    { intros key dd. rewrite lookup_try_emplace.
      destruct (_ !! key) eqn:Hc; [intros [= <-]; by apply IH|].
      case_decide; [|done]. by intros [= <-]; subst. }
    by destruct (vector_at _ _).
  - by rewrite (nextLex_unknown _ _ Hk).
Qed.

End SamplerFacts.

(** ** Closure of the model *)

Section ClosureFacts.
Context {G : Type} `{!Engine G}.
Implicit Types (st : @input_state G) (d : Distr G) (g : G).

Lemma model_add_keeps_keys curLex lex m k :
  is_Some (m !! k) → is_Some (model_add curLex lex m !! k).
Proof.
  intros [S HS]. rewrite lookup_model_add. repeat case_decide; eauto.
Qed.

Lemma closed_model_add curLex lex m :
  closed m → closed (model_add curLex lex m).
Proof.
  intros Hm k S x. rewrite lookup_model_add.
  destruct (decide (k = curLex)) as [->|Hk1].
  - intros [= <-] [Hx|Hx]%elem_of_app.
    + apply model_add_keeps_keys.
      destruct (m !! curLex) as [S0|] eqn:E; [by eapply Hm|].
      by apply elem_of_nil in Hx.
    + apply list_elem_of_singleton in Hx as ->.
      rewrite lookup_model_add. repeat case_decide; eauto; done.
  - destruct (decide (k = lex)) as [->|Hk2].
    + intros [= <-] Hx. apply model_add_keeps_keys.
      destruct (m !! lex) as [S0|] eqn:E; [by eapply Hm|].
      by apply elem_of_nil in Hx.
    + intros HS Hx. apply model_add_keeps_keys. by eapply Hm.
Qed.

Lemma closed_add_all calls d :
  closed (m_model d) → closed (m_model (add_all calls d)).
Proof.
  intros Hd. induction calls as [|c calls IH] using rev_ind; [done|].
  rewrite add_all_snoc. by apply closed_model_add.
Qed.

Lemma closed_empty : closed ∅.
Proof. intros k S lex. by rewrite lookup_empty. Qed.

Lemma main_input_closed text g st :
  main_input text g = Ok st → closed (m_model (distr st)).
Proof.
  intros [_ ->]%main_input_Ok. apply closed_add_all, closed_empty.
Qed.

(** The first lexeme of the input is the first successor recorded for the
    starting lexeme. *)
Lemma main_input_sentinel text g st first rest :
  main_input text g = Ok st → lexemes text = first :: rest →
  ∃ S, m_model (distr st) !! kStartingLex = Some (first :: S).
Proof.
  intros [_ ->]%main_input_Ok ->. cbn [adjacent].
  change ((kStartingLex, first) :: adjacent first rest)
    with ([(kStartingLex, first)] ++ adjacent first rest).
  rewrite add_all_app.
  apply (add_all_grows (adjacent first rest) _ kStartingLex [first]).
  change (m_model (add_all [(kStartingLex, first)] (Distr_init g)))
    with (model_add kStartingLex first ∅).
  by rewrite lookup_model_add, decide_True, lookup_empty.
Qed.

Lemma main_input_no_lexeme text g st :
  main_input text g = Ok st →
  uniqueLexCount (distr st) = 0%nat ↔ lexemes text = [].
Proof.
  intros Hrun. split.
  - destruct (lexemes text) as [|first rest] eqn:Hl; [done|].
    destruct (main_input_sentinel _ _ _ _ _ Hrun Hl) as [S HS].
    unfold uniqueLexCount. intros Hsize%map_size_empty_inv.
    by rewrite Hsize, lookup_empty in HS.
  - apply main_input_Ok in Hrun as [_ ->]. by intros ->.
Qed.

End ClosureFacts.

(** ** The generation loop *)

Section GenerationFacts.
Context {G : Type} `{!Engine G}.
Implicit Types (st : @gen_state G) (d : Distr G) (g : G).

Lemma out_lexemes_app (out1 out2 : list out_item) :
  out_lexemes (out1 ++ out2) = out_lexemes out1 ++ out_lexemes out2.
Proof. apply omap_app. Qed.

Lemma gen_step_Running st st' :
  gen_step st = Running st' →
  ∃ lex d,
    nextLex (g_lex st) (g_distr st) = (Ok lex, d) ∧
    g_i st ≠ INT_MAX ∧
    ¬ (kSoftLexLimit < g_i st + 1 ∧ lex = kTerminatorLex) ∧
    st' = {| g_distr := d; g_lex := lex; g_i := g_i st + 1;
             g_out := g_out st ++ OLex (g_lex st)
                        :: (if is_punctation lex then [] else [OSpace]) |}.
Proof.
  unfold gen_step. destruct (nextLex _ _) as [[lex| |] d]; [|done..].
  destruct (Z.eqb_spec (g_i st) INT_MAX) as [|Hi]; [done|].
  destruct (Z.ltb_spec kSoftLexLimit (g_i st + 1)) as [Hlim|Hlim];
    cbn [andb].
  - destruct (String.eqb_spec lex kTerminatorLex) as [->|Hlex].
    { by destruct (_ =? _). }
    intros [= <-]. exists lex, d. split_and!; [done|done|tauto|].
    by destruct (is_punctation lex); rewrite <-?app_assoc.
  - intros [= <-]. exists lex, d. split_and!; [done|done|lia|].
    by destruct (is_punctation lex); rewrite <-?app_assoc.
Qed.

Lemma gen_step_Stopped st st' :
  gen_step st = Stopped st' →
  ∃ d,
    nextLex (g_lex st) (g_distr st) = (Ok kTerminatorLex, d) ∧
    kSoftLexLimit < g_i st + 1 ∧
    st' = {| g_distr := d; g_lex := kTerminatorLex; g_i := g_i st + 2;
             g_out := g_out st ++
                        [OLex (g_lex st); OLex kTerminatorLex; OEndl] |}.
Proof.
  unfold gen_step. destruct (nextLex _ _) as [[lex| |] d]; [|done..].
  destruct (Z.eqb_spec (g_i st) INT_MAX) as [|Hi]; [done|].
  destruct (Z.ltb_spec kSoftLexLimit (g_i st + 1)) as [Hlim|Hlim];
    cbn [andb]; [|done].
  destruct (String.eqb_spec lex kTerminatorLex) as [->|Hlex]; [|done].
  destruct (Z.eqb_spec (g_i st + 1) INT_MAX) as [|Hi']; [done|].
  intros [= <-]. exists d. split_and!; [done|done|].
  change (is_punctation kTerminatorLex) with true. cbv iota.
  replace (g_i st + 1 + 1) with (g_i st + 2) by lia.
  by rewrite <-app_assoc.
Qed.

Lemma gen_step_Aborted st out d :
  gen_step st = Aborted out d →
  nextLex (g_lex st) (g_distr st) = (Abort, d) ∧
  out = g_out st ++ [OLex (g_lex st)].
Proof.
  unfold gen_step. destruct (nextLex _ _) as [[lex| |] d0]; [|by intros [= <- <-]|done].
  destruct (_ =? _); [done|]. destruct (_ && _); [|done].
  by destruct (_ =? _).
Qed.

Lemma gen_inv_step st st' :
  gen_inv st → gen_step st = Running st' →
  gen_inv st' ∧ g_i st' = g_i st + 1.
Proof.
  intros [Hi Hhist] (lex & d & _ & _ & Hstop & ->)%gen_step_Running.
  split; [|done]. unfold gen_inv, history in *. cbn [g_i g_out g_lex].
  rewrite !out_lexemes_app.
  assert (out_lexemes
            (OLex (g_lex st) :: (if is_punctation lex then [] else [OSpace]))
          = [g_lex st]) as -> by by destruct (is_punctation lex).
  split; [rewrite length_app; simpl; lia|].
  intros k Hk. destruct (decide (Z.of_nat k ≤ g_i st)) as [Hle|Hgt].
  - rewrite lookup_app_l by (rewrite length_app; simpl; lia).
    apply Hhist. lia.
  - rewrite lookup_app_r by (rewrite length_app; simpl; lia).
    rewrite length_app. cbn [length].
    replace (k - _)%nat with 0%nat by lia. simpl. intros [= ->].
    apply Hstop. split; [lia|done].
Qed.

Lemma gen_loop_Running fuel st st' :
  gen_inv st → gen_loop fuel st = Running st' →
  gen_inv st' ∧ g_i st' = g_i st + Z.of_nat fuel.
Proof.
  revert st. induction fuel as [|fuel IH]; intros st Hinv; cbn [gen_loop].
  { intros [= <-]. split; [done|lia]. }
  destruct (gen_step st) as [st1| | |] eqn:Hstep; [|done..].
  intros Hrun. destruct (gen_inv_step _ _ Hinv Hstep) as [Hinv1 Hi1].
  destruct (IH _ Hinv1 Hrun) as [Hinv' Hi']. split; [done|lia].
Qed.

(** The last turn of a run that stops. *)
Lemma gen_loop_Stopped fuel st st' :
  gen_loop fuel st = Stopped st' →
  ∃ (turns : nat) st1,
    (turns < fuel)%nat ∧ gen_loop turns st = Running st1 ∧
    gen_step st1 = Stopped st'.
Proof.
  revert st. induction fuel as [|fuel IH]; intros st; cbn [gen_loop];
    [done|].
  destruct (gen_step st) as [st1|st1| |] eqn:Hstep; [| |done..].
  - intros (turns & st2 & Hlt & Hrun & Hlast)%IH.
    exists (S turns), st2. cbn [gen_loop]. rewrite Hstep.
    split_and!; [lia|done..].
  - intros [= <-]. exists 0%nat, st. split_and!; [lia|done..].
Qed.

Lemma gen_loop_add fuel1 fuel2 st st1 :
  gen_loop fuel1 st = Running st1 →
  gen_loop (fuel1 + fuel2) st = gen_loop fuel2 st1.
Proof.
  revert st. induction fuel1 as [|fuel1 IH]; intros st; cbn [gen_loop].
  { by intros [= <-]. }
  destruct (gen_step st) as [st'| | |] eqn:Hstep; [|done..].
  intros Hrun. cbn [Nat.add gen_loop]. rewrite Hstep. by apply IH.
Qed.

(** A turn in which the counter passes the limit and the terminator is
    drawn stops the loop, while the counter is in range. *)
Lemma gen_step_stops st d :
  nextLex (g_lex st) (g_distr st) = (Ok kTerminatorLex, d) →
  kSoftLexLimit < g_i st + 1 → g_i st + 1 < INT_MAX →
  gen_step st =
    Stopped {| g_distr := d; g_lex := kTerminatorLex; g_i := g_i st + 2;
               g_out := g_out st ++
                          [OLex (g_lex st); OLex kTerminatorLex; OEndl] |}.
Proof.
  intros Hnext Hlim Hmax. unfold gen_step. rewrite Hnext.
  destruct (Z.eqb_spec (g_i st) INT_MAX); [lia|].
  destruct (Z.ltb_spec kSoftLexLimit (g_i st + 1)); [|lia].
  destruct (Z.eqb_spec (g_i st + 1) INT_MAX); [lia|].
  change (is_punctation kTerminatorLex) with true.
  change (String.eqb kTerminatorLex kTerminatorLex) with true.
  cbn [andb]. replace (g_i st + 1 + 1) with (g_i st + 2) by lia.
  by rewrite <-app_assoc.
Qed.

End GenerationFacts.

(** ** The model during generation *)

Section FrameFacts.
Context {G : Type} `{!Engine G}.
Implicit Types (st : @gen_state G) (d : Distr G) (g : G).

Lemma nextLex_present_frame curLex d :
  is_Some (m_model d !! curLex) →
  m_model (nextLex curLex d).2 = m_model d.
Proof.
  intros [[|lex S] Hk].
  - by rewrite (nextLex_exhausted _ _ Hk).
  - by destruct (nextLex_known_frame curLex d (lex :: S) Hk) as (_ & ? & _).
Qed.

Lemma nextLex_present_closed curLex d lex :
  closed (m_model d) → is_Some (m_model d !! curLex) →
  (nextLex curLex d).1 = Ok lex → is_Some (m_model d !! lex).
Proof.
  intros Hcl [[|lex0 S] Hk].
  - by rewrite (nextLex_exhausted _ _ Hk).
  - destruct (nextLex_known_frame curLex d (lex0 :: S) Hk) as (_ & _ & Hin);
      [done|]. intros Hlex%Hin. by eapply Hcl.
Qed.

Lemma gen_step_frame st :
  closed (m_model (g_distr st)) →
  is_Some (m_model (g_distr st) !! g_lex st) →
  match gen_step st with
  | Running st' =>
      m_model (g_distr st') = m_model (g_distr st) ∧
      is_Some (m_model (g_distr st) !! g_lex st')
  | r => ∀ m, run_model r = Some m → m = m_model (g_distr st)
  end.
Proof.
  intros Hcl Hk.
  pose proof (nextLex_present_frame _ _ Hk) as Hm.
  pose proof (nextLex_present_closed (g_lex st) (g_distr st)) as Hin.
  unfold gen_step. destruct (nextLex _ _) as [[lex| |] d]; cbn [fst snd] in *.
  - specialize (Hin lex Hcl Hk eq_refl).
    destruct (_ =? _); [done|]. destruct (_ && _).
    + destruct (_ =? _); [done|]. cbn. by intros m [= <-].
    + by cbn.
  - cbn. by intros m [= <-].
  - done.
Qed.

Lemma gen_loop_frame fuel st :
  closed (m_model (g_distr st)) →
  is_Some (m_model (g_distr st) !! g_lex st) →
  ∀ m, run_model (gen_loop fuel st) = Some m → m = m_model (g_distr st).
Proof.
  revert st. induction fuel as [|fuel IH]; intros st Hcl Hk;
    cbn [gen_loop]; [cbn; by intros m [= <-]|].
  pose proof (gen_step_frame st Hcl Hk) as Hstep.
  destruct (gen_step st) as [st1| | |]; [|done..].
  destruct Hstep as [Hm Hk1]. rewrite <-Hm in *. by apply IH.
Qed.

Lemma main_generate_frame fuel d r :
  closed (m_model d) →
  (uniqueLexCount d ≠ 0%nat → is_Some (m_model d !! kStartingLex)) →
  main_generate fuel d = Some r →
  ∀ m, run_model r = Some m → m = m_model d.
Proof.
  intros Hcl Hstart. unfold main_generate.
  destruct (Nat.eqb_spec (uniqueLexCount d) 0) as [|Hn]; [done|].
  specialize (Hstart Hn).
  pose proof (nextLex_present_frame _ _ Hstart) as Hm.
  pose proof (nextLex_present_closed kStartingLex d) as Hin.
  destruct (nextLex _ _) as [[lex| |] d']; cbn [fst snd] in *;
    intros [= <-].
  - specialize (Hin lex Hcl Hstart eq_refl). rewrite <-Hm in *.
    by apply gen_loop_frame.
  - cbn. by intros m [= <-].
  - done.
Qed.

End FrameFacts.

(** ** Counting the draws *)

Lemma filter_ext_in {A : Type} (P Q : A → Prop)
    `{!∀ x, Decision (P x)} `{!∀ x, Decision (Q x)} (l : list A) :
  (∀ x, x ∈ l → P x ↔ Q x) → filter P l = filter Q l.
Proof.
  induction l as [|a l IH]; intros Hext; [done|].
  rewrite !filter_cons, IH by (intros x Hx; apply Hext; by right).
  destruct (decide (P a)) as [HP|HP], (decide (Q a)) as [HQ|HQ];
    try done; exfalso; apply (Hext a) in HP || apply (Hext a) in HQ;
    try done; by left.
Qed.

(** Among the indices of [S], as many select [x] as [S] has entries equal
    to [x]. *)
Lemma count_indices (S : list string) (x : string) :
  length (filter (λ i, bool_decide (vector_at S i = Some x) = true)
            (seqZ 0 (Z.of_nat (length S))))
  = length (filter (λ y, y = x) S).
Proof.
  induction S as [|y S IH] using rev_ind; [done|].
  rewrite length_app, Nat2Z.inj_add, seqZ_app by lia.
  rewrite !filter_app, !length_app. f_equal.
  - rewrite <-IH. f_equal. apply filter_ext_in. intros i Hi.
    apply elem_of_seqZ in Hi. unfold vector_at.
    destruct (Z.ltb_spec i 0); [lia|].
    by rewrite lookup_app_l by lia.
  - change (seqZ (0 + Z.of_nat (length S)) (Z.of_nat (length [y])))
      with [Z.of_nat (length S)].
    rewrite !filter_cons, !filter_nil. unfold vector_at.
    destruct (Z.ltb_spec (Z.of_nat (length S)) 0); [lia|].
    rewrite Nat2Z.id, lookup_app_r, Nat.sub_diag by lia.
    cbn [lookup list_lookup].
    destruct (decide (y = x)) as [->|Hne].
    + by rewrite bool_decide_eq_true_2.
    + rewrite bool_decide_eq_false_2 by congruence. done.
Qed.

Section FrequencyFacts.
Context {G : Type} `{!Engine G}.
Implicit Types (d : Distr G) (g : G).

(** With a well-formed cache and a sequence short enough for [int], the
    distribution object [nextLex] applies has the bounds [0] and
    [|S| - 1], cached or not. *)
Lemma nextLex_fresh_distribution curLex d S :
  cache_wf (m_uniform_sitribution_states d) →
  m_model d !! curLex = Some S → S ≠ [] →
  Z.of_nat (length S) ≤ 2 ^ 31 →
  let dd := {| dist_a := 0; dist_b := Z.of_nat (length S) - 1 |} in
  nextLex curLex d =
    let d2 := {| m_model := m_model d;
                 m_uniform_sitribution_states :=
                   try_emplace (Z.of_nat (length S) - 1) dd
                     (m_uniform_sitribution_states d);
                 m_gen := (uniform_int dd (m_gen d)).2 |} in
    match vector_at S (uniform_int dd (m_gen d)).1 with
    | Some lexPtr => (Ok lexPtr, d2)
    | None => (Undefined, d2)
    end.
Proof.
  intros Hwf Hk Hne Hlen. cbv zeta. rewrite (nextLex_known _ _ _ Hk Hne).
  cbv zeta. assert (0 < Z.of_nat (length S)) by (destruct S; [done|simpl; lia]).
  rewrite to_int_small by lia.
  set (dd := {| dist_a := 0; dist_b := Z.of_nat (length S) - 1 |}).
  assert (default dd (m_uniform_sitribution_states d
                        !! (Z.of_nat (length S) - 1)) = dd) as ->.
  { destruct (m_uniform_sitribution_states d !! _) as [dd'|] eqn:Hc;
      [|done]. by apply Hwf in Hc. }
  cbn [dist_a dist_b dd]. by destruct (Z.ltb_spec (Z.of_nat (length S) - 1) 0); [lia|].
Qed.

(** A sequence too long for [int]: the bounds wrap around. *)
Lemma nextLex_long_sequence curLex d S :
  cache_wf (m_uniform_sitribution_states d) →
  m_model d !! curLex = Some S →
  Z.of_nat (length S) = 2 ^ 31 + 1 →
  (nextLex curLex d).1 = Undefined.
Proof.
  intros Hwf Hk Hlen.
  assert (S ≠ []) as Hne by (intros ->; simpl in Hlen; lia).
  rewrite (nextLex_known _ _ _ Hk Hne). cbv zeta. rewrite Hlen.
  replace (to_int (2 ^ 31 + 1 - 1)) with (- 2 ^ 31) by done.
  set (fresh := {| dist_a := 0; dist_b := - 2 ^ 31 |}).
  assert (default fresh (m_uniform_sitribution_states d !! (- 2 ^ 31))
          = fresh) as ->.
  { destruct (m_uniform_sitribution_states d !! _) as [dd'|] eqn:Hc;
      [|done]. by apply Hwf in Hc. }
  done.
Qed.

Lemma reachable_add_all calls d : reachable d → reachable (add_all calls d).
Proof.
  intros Hd. induction calls as [|c calls IH] using rev_ind; [done|].
  rewrite add_all_snoc. by constructor.
Qed.

End FrequencyFacts.

(** ** A text with one long successor sequence *)

Section LongTextFacts.
Context {G : Type} `{!Engine G}.
Implicit Types (d : Distr G) (g : G).

Lemma chunks_long_text n : chunks (long_text n) = replicate n "a".
Proof.
  induction n as [|n IH]; [done|].
  change (chunks (long_text (S n))) with ("a" :: chunks (long_text n)).
  by rewrite IH.
Qed.

Lemma lexemes_long_text n : lexemes (long_text n) = replicate n "a".
Proof.
  unfold lexemes. rewrite chunks_long_text.
  induction n as [|n IH]; [done|]. cbn [replicate map concat].
  rewrite IH. reflexivity.
Qed.

Lemma adjacent_replicate (x : string) n :
  adjacent x (replicate n x) = replicate n (x, x).
Proof. induction n as [|n IH]; [done|]. cbn. by rewrite IH. Qed.

Lemma model_long_sequence n g :
  let d := add_all (adjacent kStartingLex (replicate (S n) "a"))
             (Distr_init g) in
  m_model d !! kStartingLex = Some ["a"] ∧
  m_model d !! "a" = Some (replicate n "a").
Proof.
  cbn [replicate adjacent]. rewrite adjacent_replicate.
  induction n as [|n IH]; [done|].
  change ((kStartingLex, "a") :: replicate (S n) ("a", "a"))
    with ([(kStartingLex, "a")] ++ replicate (S n) ("a", "a")).
  rewrite replicate_S_end, app_assoc, add_all_snoc.
  cbv zeta in IH. destruct IH as [IH1 IH2].
  cbn [add fst snd set_model m_model]. rewrite !lookup_model_add.
  split.
  - rewrite decide_False by done. rewrite decide_False by done. exact IH1.
  - rewrite decide_True by done. cbn [app] in IH2 |- *. rewrite IH2.
    cbn [default from_option id]. by rewrite <-replicate_S_end.
Qed.

Lemma main_input_long_text n g :
  ∃ st,
    main_input (long_text (S n)) g = Ok st ∧
    reachable (distr st) ∧
    m_model (distr st) !! kStartingLex = Some ["a"] ∧
    m_model (distr st) !! "a" = Some (replicate n "a").
Proof.
  destruct (main_input_completes (long_text (S n)) g) as [st Hin].
  { rewrite chunks_long_text. by apply Forall_replicate. }
  exists st. split; [done|].
  apply main_input_Ok in Hin as [_ ->]. rewrite lexemes_long_text.
  split; [apply reachable_add_all, reachable_init|].
  apply model_long_sequence.
Qed.

(** The first draw on a model in which the starting lexeme has one
    successor gives that successor. *)
Lemma nextLex_single curLex d lex :
  reachable d → m_model d !! curLex = Some [lex] →
  (nextLex curLex d).1 = Ok lex.
Proof.
  intros Hd Hk.
  rewrite (nextLex_fresh_distribution curLex d [lex])
    by (done || by apply reachable_cache_wf).
  cbv zeta. cbn [length].
  set (dd := {| dist_a := 0; dist_b := Z.of_nat 1 - 1 |}).
  pose proof (uniform_int_range dd (m_gen d)) as Hr.
  cbn [dist_a dist_b dd] in Hr.
  assert ((uniform_int dd (m_gen d)).1 = 0) as -> by lia.
  done.
Qed.

Lemma generation_long_sequence d S fuel :
  reachable d →
  m_model d !! kStartingLex = Some ["a"] →
  m_model d !! "a" = Some S → Z.of_nat (length S) = 2 ^ 31 + 1 →
  main_generate (Datatypes.S fuel) d = Some RunUndefined.
Proof.
  intros Hd Hstart Ha Hlen. unfold main_generate.
  destruct (Nat.eqb_spec (uniqueLexCount d) 0) as [Hn|_].
  { apply map_size_empty_inv in Hn. by rewrite Hn in Hstart. }
  pose proof (nextLex_single kStartingLex d "a" Hd Hstart) as Hfirst.
  pose proof (nextLex_present_frame kStartingLex d) as Hm.
  assert (reachable (nextLex kStartingLex d).2) as Hd' by by constructor.
  destruct (nextLex kStartingLex d) as [o d'] eqn:Hnext.
  cbn [fst snd] in *. subst o. f_equal. cbn [gen_loop].
  unfold gen_step. cbn [g_lex g_distr].
  pose proof (nextLex_long_sequence "a" d' S) as Hundef.
  rewrite Hm in Hundef by eauto.
  specialize (Hundef (reachable_cache_wf _ Hd') Ha Hlen).
  destruct (nextLex "a" d') as [o d'']. cbn [fst] in Hundef. by subst o.
Qed.

End LongTextFacts.

(** * The statements of the specification *)

Section Claims.
Context {G : Type} `{!Engine G}.
Implicit Types (d : Distr G) (g : G).

(** C7: after any sequence of [add] calls, made on any state of the
    model, every lexeme passed as predecessor or as successor has an
    entry; every entry the model had is still there, its successor
    sequence extended at the end at most; and the number of entries has
    not gone down. *)
Theorem add_only_grows (calls : list (string * string)) d :
  (∀ c, c ∈ calls →
     is_Some (m_model (add_all calls d) !! c.1) ∧
     is_Some (m_model (add_all calls d) !! c.2)) ∧
  (∀ k S, m_model d !! k = Some S →
     ∃ S', m_model (add_all calls d) !! k = Some (S ++ S')) ∧
  (uniqueLexCount d ≤ uniqueLexCount (add_all calls d))%nat.
Proof.
  split_and!.
  - intros c (calls1 & calls2 & ->)%list_elem_of_split.
    change (c :: calls2) with ([c] ++ calls2).
    rewrite !add_all_app.
    destruct (add_registers c.1 c.2 (add_all calls1 d)) as [[S1 H1] [S2 H2]].
    destruct (add_all_grows calls2 _ _ _ H1) as [S1' H1'].
    destruct (add_all_grows calls2 _ _ _ H2) as [S2' H2'].
    split; eauto.
  - intros k S. apply add_all_grows.
  - unfold uniqueLexCount. rewrite <-!size_dom. apply subseteq_size.
    rewrite dom_add_all. set_solver.
Qed.

(** C6: [nextLex] aborts exactly when the lexeme has no entry or an entry
    with an empty successor sequence; an abort ends the run at once,
    before the loop as well as in any turn of it, whatever number of
    turns was still allowed; and a call that succeeds returns an element
    of the stored sequence and leaves the model as it was. *)
Theorem nextLex_lookup_error curLex d :
  ((nextLex curLex d).1 = Abort ↔
     m_model d !! curLex = None ∨ m_model d !! curLex = Some []) ∧
  (∀ fuel, uniqueLexCount d ≠ 0%nat →
     (nextLex kStartingLex d).1 = Abort →
     main_generate fuel d = Some (Aborted [] (nextLex kStartingLex d).2)) ∧
  (∀ fuel st, g_lex st = curLex → g_distr st = d →
     (nextLex curLex d).1 = Abort →
     gen_loop (S fuel) st
       = Aborted (g_out st ++ [OLex curLex]) (nextLex curLex d).2) ∧
  (∀ lex, (nextLex curLex d).1 = Ok lex →
     ∃ S, m_model d !! curLex = Some S ∧ lex ∈ S ∧
          m_model (nextLex curLex d).2 = m_model d).
Proof.
  split_and!.
  - apply nextLex_Abort_iff.
  - intros fuel Hn Hab. unfold main_generate.
    destruct (Nat.eqb_spec (uniqueLexCount d) 0) as [|_]; [done|].
    destruct (nextLex kStartingLex d) as [[lex| |] d']; by simplify_eq/=.
  - intros fuel st <- <- Hab. cbn [gen_loop]. unfold gen_step.
    destruct (nextLex _ _) as [[lex| |] d']; by simplify_eq/=.
  - intros lex Hok.
    destruct (m_model d !! curLex) as [[|lex0 S]|] eqn:Hk.
    + by rewrite (nextLex_exhausted _ _ Hk) in Hok.
    + destruct (nextLex_known_frame curLex d (lex0 :: S) Hk)
        as (_ & Hm & Hin); [done|]. exists (lex0 :: S). eauto.
    + by rewrite (nextLex_unknown _ _ Hk) in Hok.
Qed.

(** C9: once the model is built from a text, the generation phase does
    not modify it: whatever the number of turns, a run that is still
    going, has stopped or has aborted holds the model the input phase
    left, with the same keys, the same successor sequences and the same
    number of entries. A call of [nextLex] on a lexeme that has an entry
    leaves the model as it is, whether it succeeds or aborts on an empty
    successor sequence; the one call that changes the model is a call on
    a lexeme without an entry, which inserts an empty entry before it
    aborts, and the generation phase makes no such call. *)
Theorem nextLex_model_frame curLex d :
  (is_Some (m_model d !! curLex) →
     m_model (nextLex curLex d).2 = m_model d) ∧
  (m_model d !! curLex = None →
     (nextLex curLex d).1 = Abort ∧
     m_model (nextLex curLex d).2 = <[curLex := []]> (m_model d) ∧
     uniqueLexCount (nextLex curLex d).2 = S (uniqueLexCount d)) ∧
  (∀ text g st fuel r m,
     main_input text g = Ok st →
     main_generate fuel (distr st) = Some r →
     run_model r = Some m →
     m = m_model (distr st) ∧
     dom m = dom (m_model (distr st)) ∧
     size m = uniqueLexCount (distr st)).
Proof.
  split_and!.
  - apply nextLex_present_frame.
  - intros Hk. rewrite (nextLex_unknown _ _ Hk). split_and!; [done..|].
    by apply map_size_insert_None.
  - intros text g st fuel r m Hin Hgen Hm.
    assert (m = m_model (distr st)) as ->; [|done].
    apply (main_generate_frame fuel (distr st) r); [|  |done|done].
    + by eapply main_input_closed.
    + intros Hn. destruct (lexemes text) as [|first rest] eqn:Hl.
      * by apply (main_input_no_lexeme _ _ _ Hin) in Hl.
      * destruct (main_input_sentinel _ _ _ _ _ Hin Hl) as [S ->]. eauto.
Qed.

(** C8, amended: once the model is built from a text, [uniqueLexCount] is
    0 when the text has no lexeme; otherwise it is the number of distinct
    lexemes of the text, plus one when the starting lexeme is not among
    them. *)
Theorem uniqueLexCount_distinct_lexemes text g (st : input_state) :
  main_input text g = Ok st →
  uniqueLexCount (distr st) =
    if decide (lexemes text = []) then 0%nat
    else (length (remove_dups (lexemes text)) +
          (if decide (kStartingLex ∈ lexemes text) then 0 else 1))%nat.
Proof.
  intros [_ ->]%main_input_Ok.
  destruct (decide (lexemes text = [])) as [->|Hne]; [done|].
  unfold uniqueLexCount.
  rewrite <-size_dom, dom_add_all, <-(assoc_L (∪)), adjacent_elements by done.
  cbn [Distr_init m_model]. rewrite dom_empty_L, (left_id_L ∅ (∪)).
  rewrite <-size_list_to_set_remove_dups.
  destruct (decide (kStartingLex ∈ lexemes text)) as [Hin|Hnin].
  - rewrite Nat.add_0_r. f_equal. set_solver.
  - rewrite size_union, size_singleton by set_solver. lia.
Qed.

(** C10: when the model built from a text is not empty, the text has a
    first lexeme, the starting lexeme has an entry whose successor
    sequence begins with it, and the first draw of the generator does not
    abort. *)
Theorem sentinel_has_successor text g (st : input_state) :
  main_input text g = Ok st →
  (0 < uniqueLexCount (distr st))%nat →
  ∃ first S,
    head (lexemes text) = Some first ∧
    m_model (distr st) !! kStartingLex = Some (first :: S) ∧
    (nextLex kStartingLex (distr st)).1 ≠ Abort.
Proof.
  intros Hin Hn. destruct (lexemes text) as [|first rest] eqn:Hl.
  { apply (main_input_no_lexeme _ _ _ Hin) in Hl. lia. }
  destruct (main_input_sentinel _ _ _ _ _ Hin Hl) as [S HS].
  exists first, S. split_and!; [done..|].
  rewrite nextLex_Abort_iff, HS. naive_solver.
Qed.

(** C2, at the text "a — b": by the linking rule a chunk without lexeme
    links nothing, so that "b" follows "a", the last lexeme of the most
    recent chunk that has one; the input loop gives "a" the starting
    lexeme as predecessor and keeps a pointer to "a", and then, in the
    chunk made of the em dash, reads the end iterator, before "b" is
    read. So it is on every text that has a chunk without lexeme. *)
Theorem linking_rule_undefined_at_empty_chunk g :
  let text := "a " +:+ em_dash +:+ " b" in
  (∀ prev css1 css2,
     linked_pairs prev (css1 ++ [] :: css2)
       = linked_pairs prev (css1 ++ css2)) ∧
  lex_chunk <$> chunks text = [["a"]; []; ["b"]] ∧
  linked_pairs kStartingLex (lex_chunk <$> chunks text)
    = [(kStartingLex, "a"); ("a", "b")] ∧
  (∃ st1,
     read_chunks ["a"] (input_init g) = Ok st1 ∧
     add_calls st1 = [(kStartingLex, "a")] ∧
     prevChunkLastLexStrPtr st1 = Some "a" ∧
     read_chunks [em_dash; "b"] st1 = Undefined) ∧
  main_input text g = Undefined ∧
  (∀ text', Exists (λ c, lex_chunk c = []) (chunks text') →
            main_input text' g = Undefined).
Proof.
  intros text. split_and!.
  - intros prev css1. revert prev.
    induction css1 as [|toks css1 IH]; intros prev css2; [done|].
    cbn [app linked_pairs]. by rewrite IH.
  - reflexivity.
  - reflexivity.
  - eexists. split; [reflexivity|]. by split_and!.
  - apply main_input_Undefined, Exists_cons_tl, Exists_cons_hd. done.
  - intros text'. apply main_input_Undefined.
Qed.

(** C4, at the chunk made of an em dash: the loop over the tokens of a
    chunk without lexeme reads the end iterator; the em dash is such a
    chunk; and the input loop is undefined on every text in which it
    stands as a chunk, whatever precedes and follows it. *)
Theorem chunk_without_lexeme_undefined :
  (∀ prevIt (st : @input_state G), chunk_loop [] prevIt st = Undefined) ∧
  lex_chunk em_dash = [] ∧
  (∀ cs (st : @input_state G), read_chunks (em_dash :: cs) st = Undefined) ∧
  (∀ g : G, chunks ("a " +:+ em_dash +:+ " b") = ["a"; em_dash; "b"] ∧
            main_input ("a " +:+ em_dash +:+ " b") g = Undefined).
Proof.
  split_and!; [done..|]. intros g. split; [done|].
  apply main_input_Undefined, Exists_cons_tl, Exists_cons_hd. done.
Qed.

(** C1, at the text made of [2^31 + 2] times the word "a": the input
    phase completes; the successor sequence of "a" has [2^31 + 1] entries,
    all of them "a"; its length less one, converted to [int], is
    [-2^31]; the draw from that sequence is undefined, where the claim
    has it return "a" with probability 1; and every run of the generator
    that makes a turn of its loop reaches that draw. *)
Theorem draw_from_long_sequence_undefined g :
  let n := Z.to_nat (2 ^ 31 + 1) in
  let text := long_text (S n) in
  ∃ st,
    main_input text g = Ok st ∧
    lexemes text = replicate (S n) "a" ∧
    m_model (distr st) !! kStartingLex = Some ["a"] ∧
    m_model (distr st) !! "a" = Some (replicate n "a") ∧
    Z.of_nat (length (replicate n "a")) = 2 ^ 31 + 1 ∧
    to_int (Z.of_nat (length (replicate n "a")) - 1) = - 2 ^ 31 ∧
    (nextLex "a" (distr st)).1 = Undefined ∧
    ∀ fuel, main_generate (S fuel) (distr st) = Some RunUndefined.
Proof.
  intros n text.
  assert (Z.of_nat n = 2 ^ 31 + 1) as Hn by (subst n; by rewrite Z2Nat.id).
  subst text. clearbody n.
  destruct (main_input_long_text n g) as (st & Hin & Hd & Hstart & Ha).
  assert (Z.of_nat (length (replicate n "a")) = 2 ^ 31 + 1) as Hlen
    by by rewrite length_replicate.
  exists st. split_and!; [done|apply lexemes_long_text|done|done|done| | |].
  - by rewrite Hlen.
  - by apply (nextLex_long_sequence "a" (distr st) (replicate n "a"));
      [apply reachable_cache_wf|..].
  - intros fuel. by eapply generation_long_sequence.
Qed.

(** C3: a run of the generator that stops has made some number of turns
    of the loop; that number, which is the value of the counter at the
    test, exceeds the limit; the lexeme drawn in the last turn is the
    terminator, and it is the last thing written before the end of the
    line; no draw made between the limit and the last turn gave the
    terminator; and more lexemes than the limit have been written. A run
    that is still going after some number of turns has not drawn the
    terminator in any turn past the limit. And when, after [n] turns with
    [n] at least the limit, the next draw gives the terminator, every run
    allowed more than [n] turns stops in turn [n + 1], the [int] counter
    being in range. *)
Theorem generation_stops_at_first_late_terminator d :
  (∀ fuel st, main_generate fuel d = Some (Stopped st) →
     ∃ turns : nat,
       (turns ≤ fuel)%nat ∧
       kSoftLexLimit < Z.of_nat turns ∧
       g_i st = Z.of_nat turns + 1 ∧
       length (out_lexemes (g_out st)) = S turns ∧
       out_lexemes (g_out st) !! turns = Some kTerminatorLex ∧
       g_lex st = kTerminatorLex ∧
       (∃ out, g_out st = out ++ [OLex kTerminatorLex; OEndl]) ∧
       (∀ k : nat, kSoftLexLimit < Z.of_nat k → (k < turns)%nat →
          out_lexemes (g_out st) !! k ≠ Some kTerminatorLex) ∧
       kSoftLexLimit + 1 ≤ Z.of_nat (length (out_lexemes (g_out st)))) ∧
  (∀ fuel st, main_generate fuel d = Some (Running st) →
     g_i st = Z.of_nat fuel ∧
     length (out_lexemes (g_out st)) = fuel ∧
     ∀ k : nat, kSoftLexLimit < Z.of_nat k → (k ≤ fuel)%nat →
       history st !! k ≠ Some kTerminatorLex) ∧
  (∀ (n : nat) st d',
     main_generate n d = Some (Running st) →
     nextLex (g_lex st) (g_distr st) = (Ok kTerminatorLex, d') →
     kSoftLexLimit ≤ Z.of_nat n → Z.of_nat n + 1 < INT_MAX →
     ∀ fuel, (n < fuel)%nat →
       main_generate fuel d =
         Some (Stopped
                 {| g_distr := d'; g_lex := kTerminatorLex;
                    g_i := Z.of_nat n + 2;
                    g_out := g_out st ++
                      [OLex (g_lex st); OLex kTerminatorLex; OEndl] |})).
Proof.
  unfold main_generate.
  destruct (Nat.eqb (uniqueLexCount d) 0); [done|].
  destruct (nextLex kStartingLex d) as [[lex0| |] d0]; [|done..].
  set (st0 := {| g_distr := d0; g_lex := lex0; g_i := 0; g_out := [] |}).
  assert (gen_inv st0) as Hinv0.
  { split; [done|]. intros k. unfold kSoftLexLimit. cbn. lia. }
  split_and!.
  - intros fuel st [= (turns & st1 & Hlt & Hrun & Hlast)%gen_loop_Stopped].
    destruct (gen_loop_Running _ _ _ Hinv0 Hrun) as [[Hi1 Hhist1] Hturns].
    apply gen_step_Stopped in Hlast as (d1 & _ & Hlim & ->).
    cbn [g_i st0] in Hturns. cbn [g_i g_out g_lex].
    assert (out_lexemes (g_out st1 ++ [OLex (g_lex st1); OLex kTerminatorLex; OEndl])
            = history st1 ++ [kTerminatorLex]) as ->.
    { unfold history. by rewrite out_lexemes_app, <-app_assoc. }
    assert (length (history st1) = S turns) as Hlen.
    { unfold history. rewrite length_app. simpl. lia. }
    exists (S turns). split_and!.
    + lia.
    + lia.
    + lia.
    + rewrite length_app, Hlen. simpl. lia.
    + by rewrite lookup_app_r, Hlen, Nat.sub_diag by lia.
    + done.
    + by exists (g_out st1 ++ [OLex (g_lex st1)]); rewrite <-app_assoc.
    + intros k Hk1 Hk2. rewrite lookup_app_l by lia. apply Hhist1. lia.
    + rewrite length_app, Hlen. simpl. lia.
  - intros fuel st [= Hrun].
    destruct (gen_loop_Running _ _ _ Hinv0 Hrun) as [[Hi Hhist] Hturns].
    cbn [g_i st0] in Hturns. split_and!; [lia|lia|].
    intros k Hk1 Hk2. apply Hhist. lia.
  - intros n st d' [= Hrun] Hnext Hlim Hmax fuel Hfuel.
    destruct (gen_loop_Running _ _ _ Hinv0 Hrun) as [_ Hturns].
    cbn [g_i st0] in Hturns.
    replace fuel with (n + S (fuel - S n))%nat by lia.
    rewrite (gen_loop_add _ _ _ _ Hrun). cbn [gen_loop].
    rewrite (gen_step_stops st d') by (done || lia).
    by replace (g_i st + 2) with (Z.of_nat n + 2) by lia.
Qed.

(** C5, amended: in every turn of the loop, after the current lexeme is
    written, a space is written exactly when the lexeme drawn next is not
    punctuation; in the turn that stops, the terminator and the end of the
    line follow; in a turn that aborts, nothing follows. *)
Theorem space_precedes_next_word (st : @gen_state G) :
  match gen_step st with
  | Running st' =>
      nextLex (g_lex st) (g_distr st) = (Ok (g_lex st'), g_distr st') ∧
      g_out st' =
        g_out st ++ OLex (g_lex st)
          :: (if is_punctation (g_lex st') then [] else [OSpace])
  | Stopped st' =>
      nextLex (g_lex st) (g_distr st) = (Ok (g_lex st'), g_distr st') ∧
      g_out st' =
        g_out st ++ OLex (g_lex st)
          :: (if is_punctation (g_lex st') then [] else [OSpace])
          ++ [OLex (g_lex st'); OEndl]
  | Aborted out d =>
      nextLex (g_lex st) (g_distr st) = (Abort, d) ∧
      out = g_out st ++ [OLex (g_lex st)]
  | RunUndefined => True
  end.
Proof.
  destruct (gen_step st) as [st'|st'|out d|] eqn:Hstep; [| | |done].
  - by apply gen_step_Running in Hstep as (lex & d & ? & _ & _ & ->).
  - by apply gen_step_Stopped in Hstep as (d & ? & _ & ->).
  - by apply gen_step_Aborted.
Qed.

End Claims.

(** ** Concrete runs

    The engine of these runs replays a recorded list of raw values. *)

(** A text that stops after 503 turns of the loop. *)
Lemma generation_stops_witness :
  ∃ st0 st (turns : nat),
    main_input "Hello, world." ([] : list Z) = Ok st0 ∧
    main_generate 600 (distr st0) = Some (Stopped st) ∧
    turns = 503%nat ∧
    g_i st = 504 ∧
    out_lexemes (g_out st) !! turns = Some kTerminatorLex.
Proof.
  destruct (main_input "Hello, world." ([] : list Z)) as [st0| |] eqn:Hin;
    [|vm_compute in Hin; discriminate..].
  exists st0. vm_compute in Hin. injection Hin as <-.
  match goal with |- context [main_generate 600 ?d] => set (d0 := d) end.
  destruct (main_generate 600 d0) as [[st|st|out d|]|] eqn:Hgen;
    try (vm_compute in Hgen; discriminate).
  destruct (proj1 (generation_stops_at_first_late_terminator d0) _ st Hgen)
    as (turns & _ & _ & Hi & _ & Hlast & _).
  vm_compute in Hgen. injection Hgen as <-.
  assert (turns = 503%nat) as -> by (cbn [g_i] in Hi; lia).
  eexists _, 503%nat. split_and!; [reflexivity..|exact Hlast].
Defined.

(** The word "Hello" is followed by a comma: no space is written after
    it, although it is no punctuation. *)
Lemma space_follows_word_counterexample :
  ∃ st0 lex d st',
    main_input "Hello, world." ([] : list Z) = Ok st0 ∧
    nextLex kStartingLex (distr st0) = (Ok lex, d) ∧
    lex = "Hello" ∧ is_punctation lex = false ∧
    gen_step {| g_distr := d; g_lex := lex; g_i := 0; g_out := [] |}
      = Running st' ∧
    g_lex st' = "," ∧
    g_out st' = [OLex "Hello"] ∧
    g_out st' ≠ [OLex "Hello"; OSpace].
Proof.
  eexists _, _, _, _.
  split; [vm_compute; reflexivity|].
  split; [vm_compute; reflexivity|].
  split; [reflexivity|]. split; [reflexivity|].
  split; [vm_compute; reflexivity|]. done.
Qed.

(** The text with the lexemes the, cat, saw, the, dog. *)
Lemma uniqueLexCount_distinct_lexemes_witness :
  ∃ st,
    main_input "the cat saw the dog" ([] : list Z) = Ok st ∧
    lexemes "the cat saw the dog" = ["the"; "cat"; "saw"; "the"; "dog"] ∧
    uniqueLexCount (distr st) = 5%nat.
Proof.
  destruct (main_input "the cat saw the dog" ([] : list Z))
    as [st| |] eqn:Hin; [|vm_compute in Hin; discriminate..].
  exists st. split_and!; [done|done|].
  by rewrite (uniqueLexCount_distinct_lexemes _ _ _ Hin).
Defined.

(** The empty text: the model is built and stays empty, where the count
    of distinct lexemes plus one for the starting lexeme would be 1. *)
Lemma uniqueLexCount_empty_text :
  ∃ st,
    main_input EmptyString ([] : list Z) = Ok st ∧
    uniqueLexCount (distr st) = 0%nat ∧
    (length (remove_dups (lexemes EmptyString)) +
       (if decide (kStartingLex ∈ lexemes EmptyString) then 0 else 1))%nat = 1%nat ∧
    uniqueLexCount (distr st) ≠
      (length (remove_dups (lexemes EmptyString)) +
         (if decide (kStartingLex ∈ lexemes EmptyString) then 0 else 1))%nat.
Proof. by eexists. Qed.

(** The text "a b": the starting lexeme is followed by "a". *)
Lemma sentinel_has_successor_witness :
  ∃ st,
    main_input "a b" ([] : list Z) = Ok st ∧
    uniqueLexCount (distr st) = 3%nat ∧
    m_model (distr st) !! kStartingLex = Some ["a"] ∧
    (nextLex kStartingLex (distr st)).1 ≠ Abort.
Proof.
  destruct (main_input "a b" ([] : list Z)) as [st| |] eqn:Hin;
    [|vm_compute in Hin; discriminate..].
  assert (uniqueLexCount (distr st) = 3%nat) as Hn.
  { vm_compute in Hin. by injection Hin as <-. }
  destruct (sentinel_has_successor _ _ _ Hin) as (first & S & _ & HS & Hna);
    [lia|].
  exists st. split_and!; [done|done| |done].
  vm_compute in Hin. injection Hin as <-. by vm_compute.
Defined.

(** * Further properties *)

(** ** The effect of [add] *)

Section AddFacts.
Context {G : Type} `{!Engine G}.
Implicit Types (d : Distr G) (g : G) (m : gmap string (list string)).

Lemma successors_in_absent k calls :
  k ∉ calls.*1 → successors_in k calls = [].
Proof.
  unfold successors_in. induction calls as [|c calls IH]; [done|].
  cbn [fmap list_fmap]. rewrite not_elem_of_cons. intros [Hc Hk].
  by rewrite filter_cons, decide_False, IH by done.
Qed.

Lemma successors_in_snoc k calls c :
  successors_in k (calls ++ [c]) =
    successors_in k calls ++ (if decide (c.1 = k) then [c.2] else []).
Proof.
  unfold successors_in. rewrite filter_app, fmap_app. f_equal.
  rewrite filter_cons, filter_nil. by case_decide.
Qed.

Lemma successors_in_count k x calls :
  length (filter (λ y, y = x) (successors_in k calls))
    = length (filter (λ c, c = (k, x)) calls).
Proof.
  unfold successors_in. induction calls as [|[k' y] calls IH]; [done|].
  rewrite !filter_cons. cbn [fst].
  destruct (decide (k' = k)) as [->|Hk].
  - cbn [fmap list_fmap snd]. rewrite filter_cons.
    destruct (decide (y = x)) as [->|Hy].
    + rewrite decide_True by done. cbn [length]. by rewrite IH.
    + rewrite decide_False by congruence. done.
  - rewrite decide_False by congruence. done.
Qed.

Lemma lookup_add_all calls d k :
  m_model (add_all calls d) !! k =
    match m_model d !! k with
    | Some old => Some (old ++ successors_in k calls)
    | None =>
        if decide (k ∈ calls.*1 ∨ k ∈ calls.*2)
        then Some (successors_in k calls) else None
    end.
Proof.
  induction calls as [|c calls IH] using rev_ind.
  { cbn. destruct (m_model d !! k); [by rewrite app_nil_r|].
    rewrite decide_False; [done|]. intros [?%elem_of_nil|?%elem_of_nil]; done. }
  rewrite add_all_snoc. cbn [add snd set_model m_model].
  rewrite lookup_model_add, successors_in_snoc, !fmap_app.
  cbn [fmap list_fmap].
  assert ((k ∈ calls.*1 ++ [c.1] ∨ k ∈ calls.*2 ++ [c.2]) ↔
          (k ∈ calls.*1 ∨ k ∈ calls.*2) ∨ k = c.1 ∨ k = c.2) as Hiff.
  { rewrite !elem_of_app, !list_elem_of_singleton. tauto. }
  assert (¬ (k ∈ calls.*1 ∨ k ∈ calls.*2) → successors_in k calls = [])
    as Hnone.
  { intros Hnin. apply successors_in_absent. tauto. }
  destruct (decide (k ∈ calls.*1 ++ [c.1] ∨ k ∈ calls.*2 ++ [c.2]))
    as [H1|H1];
    destruct (decide (k ∈ calls.*1 ∨ k ∈ calls.*2)) as [H0|H0];
    try (exfalso; tauto);
    destruct (decide (k = c.1)) as [E1|E1]; try (exfalso; tauto);
    try rewrite <-E1; try rewrite (decide_True (P := k = k)) by done;
    try rewrite (decide_False (P := c.1 = k)) by congruence;
    (destruct (decide (k = c.2)) as [E2|E2]; try (exfalso; tauto));
    try rewrite <-E2; rewrite IH;
    destruct (m_model d !! k); cbn [default from_option id];
    rewrite ?Hnone by done; rewrite ?app_nil_r, ?app_nil_l;
    try done; by rewrite app_assoc.
Qed.

Lemma elem_of_successors_in k x calls :
  x ∈ successors_in k calls ↔ (k, x) ∈ calls.
Proof.
  unfold successors_in. rewrite list_elem_of_fmap. split.
  - intros ([k' x'] & -> & [Hk Hin]%list_elem_of_filter). by simplify_eq/=.
  - intros Hin. exists (k, x). split; [done|].
    by apply list_elem_of_filter.
Qed.

Lemma successors_in_nil k calls :
  successors_in k calls = [] ↔ k ∉ calls.*1.
Proof.
  split; [|apply successors_in_absent].
  intros Hnil ([k' x] & Hk & Hin)%list_elem_of_fmap. cbn in Hk. subst k'.
  apply elem_of_successors_in in Hin. rewrite Hnil in Hin.
  by apply elem_of_nil in Hin.
Qed.

Lemma size_model_add curLex lex m :
  size (model_add curLex lex m) = (size m + new_keys curLex lex m)%nat.
Proof.
  rewrite <-!size_dom, dom_model_add. unfold new_keys.
  destruct (decide (is_Some (m !! lex))) as [Hl|Hl];
    destruct (decide (is_Some (m !! curLex) ∨ curLex = lex)) as [Hc|Hc];
    rewrite <-!elem_of_dom in *.
  - rewrite (subseteq_union_1_L {[curLex; lex]} (dom m)); [lia|].
    destruct Hc as [Hc| ->]; set_solver.
  - assert ({[curLex; lex]} ∪ dom m = {[curLex]} ∪ dom m) as ->
      by set_solver.
    rewrite size_union, size_singleton; [lia|set_solver].
  - assert ({[curLex; lex]} ∪ dom m = {[lex]} ∪ dom m) as ->.
    { destruct Hc as [Hc| ->]; set_solver. }
    rewrite size_union, size_singleton; [lia|set_solver].
  - assert ({[curLex; lex]} ∪ dom m = {[curLex]} ∪ ({[lex]} ∪ dom m)) as ->
      by set_solver.
    rewrite !size_union, !size_singleton; [lia|set_solver..].
Qed.

(** X1: the exact effect of one call of [add]: it returns its second argument;
    the entry of [curLex] is its old sequence, or the empty one, with
    [lex] appended; the entry of [lex] is kept, or created empty; no
    other entry changes; the number of entries grows by the number of new
    keys among the two arguments; and the cache and the engine are left
    alone. *)
Theorem add_appends_one_successor curLex lex d :
  (add curLex lex d).1 = lex ∧
  m_model (add curLex lex d).2 !! curLex
    = Some (default [] (m_model d !! curLex) ++ [lex]) ∧
  (curLex ≠ lex →
     m_model (add curLex lex d).2 !! lex
       = Some (default [] (m_model d !! lex))) ∧
  (∀ k, k ≠ curLex → k ≠ lex →
     m_model (add curLex lex d).2 !! k = m_model d !! k) ∧
  uniqueLexCount (add curLex lex d).2
    = (uniqueLexCount d + new_keys curLex lex (m_model d))%nat ∧
  m_uniform_sitribution_states (add curLex lex d).2
    = m_uniform_sitribution_states d ∧
  m_gen (add curLex lex d).2 = m_gen d.
Proof.
  cbn [add fst snd set_model m_model m_uniform_sitribution_states m_gen].
  split_and!; [done| | | |apply size_model_add|done|done].
  - by rewrite lookup_model_add, decide_True.
  - intros Hne. by rewrite lookup_model_add, decide_False, decide_True.
  - intros k Hk1 Hk2. by rewrite lookup_model_add, !decide_False.
Qed.

(** X2: the model after a sequence of [add] calls: the entry of a lexeme is
    its old successor sequence followed by the successors passed with it
    as predecessor, in the order of the calls; a lexeme that had no entry
    and is no argument of any call still has none. On the empty model the
    entries are exactly those of the arguments of the calls. *)
Theorem add_all_records_successors calls d g k :
  m_model (add_all calls d) !! k =
    match m_model d !! k with
    | Some old => Some (old ++ successors_in k calls)
    | None =>
        if decide (k ∈ calls.*1 ∨ k ∈ calls.*2)
        then Some (successors_in k calls) else None
    end ∧
  m_model (add_all calls (Distr_init g)) !! k =
    if decide (k ∈ calls.*1 ∨ k ∈ calls.*2)
    then Some (successors_in k calls) else None.
Proof.
  split; [apply lookup_add_all|].
  by rewrite lookup_add_all.
Qed.

End AddFacts.

(** ** The model built from a text *)

Lemma adjacent_dead_end prev ls k :
  k ∈ prev :: ls → k ∉ (adjacent prev ls).*1 → last (prev :: ls) = Some k.
Proof.
  revert prev. induction ls as [|l ls IH]; intros prev.
  { by intros ->%list_elem_of_singleton. }
  cbn [adjacent fmap list_fmap fst]. rewrite (last_cons_cons prev l ls).
  rewrite not_elem_of_cons. intros Hin [Hne Hnin]. apply IH; [|done].
  apply elem_of_cons in Hin as [->|]; done.
Qed.

Section BuiltModelFacts.
Context {G : Type} `{!Engine G}.
Implicit Types (st : @input_state G) (d : Distr G) (g : G).

Lemma adjacent_arguments prev ls k :
  k ∈ (adjacent prev ls).*1 ∨ k ∈ (adjacent prev ls).*2 ↔
  ls ≠ [] ∧ k ∈ prev :: ls.
Proof.
  rewrite adjacent_fst, adjacent_snd. destruct ls as [|l ls].
  { cbn. split; [intros [?%elem_of_nil|?%elem_of_nil]; done|naive_solver]. }
  split.
  - intros [Hin|Hin]; (split; [done|]); [by eapply subseteq_take|by right].
  - intros [_ Hin]. apply elem_of_cons in Hin as [->|Hin]; [|by right].
    left. cbn. by left.
Qed.

Lemma main_input_lookup text g st k :
  main_input text g = Ok st →
  m_model (distr st) !! k =
    if decide (lexemes text ≠ [] ∧ k ∈ kStartingLex :: lexemes text)
    then Some (successors_in k (adjacent kStartingLex (lexemes text)))
    else None.
Proof.
  intros [_ ->]%main_input_Ok. rewrite lookup_add_all.
  cbn [Distr_init m_model]. rewrite lookup_empty.
  pose proof (adjacent_arguments kStartingLex (lexemes text) k) as Hiff.
  repeat case_decide; tauto || done.
Qed.

(** X3: the model built from a text is the table of its neighbours.
    There is an entry for the starting lexeme and for every lexeme of the
    text, and for no other string; the entry of a lexeme lists, in the
    order of the text and with repetitions, the lexemes that come right
    after its occurrences in the sequence made of the starting lexeme and
    the lexemes of the text; so a lexeme stands in the entry of another as
    many times as it comes right after it in that sequence. *)
Theorem model_is_successor_table text g st k :
  main_input text g = Ok st →
  let calls := adjacent kStartingLex (lexemes text) in
  m_model (distr st) !! k =
    (if decide (lexemes text ≠ [] ∧ k ∈ kStartingLex :: lexemes text)
     then Some (successors_in k calls) else None) ∧
  ∀ S x, m_model (distr st) !! k = Some S →
    length (filter (λ y, y = x) S)
      = length (filter (λ c, c = (k, x)) calls).
Proof.
  intros Hin calls. pose proof (main_input_lookup _ _ _ k Hin) as Hk.
  split; [done|]. intros S x. rewrite Hk. case_decide; [|done].
  intros [= <-]. apply successors_in_count.
Qed.

Lemma main_input_dead_end text g st k :
  main_input text g = Ok st →
  m_model (distr st) !! k = Some [] ↔
  last (lexemes text) = Some k ∧
  k ∉ take (length (lexemes text)) (kStartingLex :: lexemes text).
Proof.
  intros Hin. rewrite (main_input_lookup _ _ _ k Hin).
  rewrite <-adjacent_fst. split.
  - case_decide as Hk; [|done]. destruct Hk as [Hne Hk].
    intros [= Hnil%successors_in_nil]. split; [|done].
    pose proof (adjacent_dead_end _ _ _ Hk Hnil) as Hlast.
    destruct (lexemes text) as [|l ls]; [done|].
    by rewrite (last_cons_cons kStartingLex l ls) in Hlast.
  - intros [Hlast Hnin]. rewrite decide_True.
    + f_equal. by apply successors_in_nil.
    + split; [by intros Hnil; rewrite Hnil in Hlast|].
      right. apply last_Some in Hlast as [ls' ->]. set_solver.
Qed.

(** X4: the dead ends of the model built from a text: a lexeme has an entry
    with an empty successor sequence exactly when it is the last lexeme
    of the text and occurs nowhere before in it, the starting lexeme
    counted as coming first. So the model has at most one dead end. *)
Theorem dead_end_is_last_lexeme text g st k :
  main_input text g = Ok st →
  (m_model (distr st) !! k = Some [] ↔
   last (lexemes text) = Some k ∧
   k ∉ take (length (lexemes text)) (kStartingLex :: lexemes text)) ∧
  (∀ k', m_model (distr st) !! k = Some [] →
         m_model (distr st) !! k' = Some [] → k' = k).
Proof.
  intros Hin. split; [exact (main_input_dead_end _ _ _ k Hin)|].
  intros k' Hk Hk'.
  apply (main_input_dead_end _ _ _ k Hin) in Hk as [Hk _].
  apply (main_input_dead_end _ _ _ k' Hin) in Hk' as [Hk' _].
  congruence.
Qed.

End BuiltModelFacts.

(** ** Runs of the generator *)

Lemma format_snoc ls l :
  ls ≠ [] →
  format (ls ++ [l]) =
    format ls ++ (if is_punctation l then [OLex l] else [OSpace; OLex l]).
Proof.
  destruct ls as [|l0 ls]; [done|]. intros _. cbn [format app].
  unfold format_rest. rewrite flat_map_app. cbn [flat_map].
  by rewrite app_nil_r.
Qed.

Section RunFacts.
Context {G : Type} `{!Engine G}.
Implicit Types (st : @gen_state G) (d : Distr G) (g : G) (r : @run G).

(** An invariant of the turns holds in every state a run passes. *)
Lemma gen_loop_invariant (I : gen_state → Prop) fuel st st' :
  (∀ s s', I s → gen_step s = Running s' → I s') →
  I st → gen_loop fuel st = Running st' → I st'.
Proof.
  intros Hstep. revert st. induction fuel as [|fuel IH]; intros st Hst;
    cbn [gen_loop]; [by intros [= <-]|].
  destruct (gen_step st) as [s1| | |] eqn:Hs; [|done..]. eauto.
Qed.

(** A run that is over was ended by the turn made in some state it
    passed. *)
Lemma gen_loop_last fuel st r :
  gen_loop fuel st = r → (∀ s, r ≠ Running s) →
  ∃ (n : nat) st1,
    (n < fuel)%nat ∧ gen_loop n st = Running st1 ∧ gen_step st1 = r.
Proof.
  revert st. induction fuel as [|fuel IH]; intros st; cbn [gen_loop].
  { intros <- Hr. by destruct (Hr st). }
  destruct (gen_step st) as [s1| | |] eqn:Hs.
  - intros Hrun Hr. destruct (IH _ Hrun Hr) as (n & st1 & Hn & Hrun1 & Hlast).
    exists (S n), st1. cbn [gen_loop]. rewrite Hs. split_and!; [lia|done..].
  - intros <- _. exists 0%nat, st. split_and!; [lia|done..].
  - intros <- _. exists 0%nat, st. split_and!; [lia|done..].
  - intros <- _. exists 0%nat, st. split_and!; [lia|done..].
Qed.

(** What a property of runs has to satisfy to hold for every run of
    [main_generate]: hold in the state the first draw gives, be kept by
    the turns that go on, and be handed to the result by a turn that
    ends the run. *)
Lemma main_generate_rule (I : gen_state → Prop) (Q : run → Prop) fuel d r :
  (∀ lex d', uniqueLexCount d ≠ 0%nat →
     nextLex kStartingLex d = (Ok lex, d') →
     I {| g_distr := d'; g_lex := lex; g_i := 0; g_out := [] |}) →
  (∀ s s', I s → gen_step s = Running s' → I s') →
  (∀ s, I s → Q (Running s)) →
  (∀ s r', I s → gen_step s = r' → (∀ s', r' ≠ Running s') → Q r') →
  (∀ d', uniqueLexCount d ≠ 0%nat →
     nextLex kStartingLex d = (Abort, d') → Q (Aborted [] d')) →
  Q RunUndefined →
  main_generate fuel d = Some r → Q r.
Proof.
  intros Hinit Hstep Hrun Hlast Habort Hundef. unfold main_generate.
  destruct (Nat.eqb_spec (uniqueLexCount d) 0) as [|Hn]; [done|].
  destruct (nextLex kStartingLex d) as [[lex| |] d'] eqn:Hnext;
    intros [= <-]; [|by apply Habort|done].
  specialize (Hinit _ _ Hn eq_refl).
  destruct (gen_loop fuel _) as [s| | |] eqn:Hloop.
  - apply Hrun. by eapply gen_loop_invariant.
  - apply gen_loop_last in Hloop as (n & st1 & _ & Hrun1 & Hl); [|done].
    eapply Hlast; [|done..]. by eapply gen_loop_invariant.
  - apply gen_loop_last in Hloop as (n & st1 & _ & Hrun1 & Hl); [|done].
    eapply Hlast; [|done..]. by eapply gen_loop_invariant.
  - done.
Qed.

Lemma length_draws n curLex d : (length (draws n curLex d) ≤ n)%nat.
Proof.
  revert curLex d. induction n as [|n IH]; intros curLex d; [done|].
  cbn [draws]. destruct (nextLex curLex d) as [[lex| |] d']; cbn; [|lia..].
  specialize (IH lex d'). lia.
Qed.

(** The lexemes a run of the loop has written, and the one it is about to
    write, are the lexemes it had at the start followed by the lexemes
    drawn since. *)
Lemma gen_loop_draws fuel st :
  g_i st = Z.of_nat (length (out_lexemes (g_out st))) →
  match gen_loop fuel st with
  | Running st' =>
      history st' = history st ++ draws fuel (g_lex st) (g_distr st)
  | Stopped st' =>
      ∃ n : nat,
        out_lexemes (g_out st')
          = history st ++ draws n (g_lex st) (g_distr st) ∧
        length (draws n (g_lex st) (g_distr st)) = n ∧
        g_i st' = Z.of_nat (length (out_lexemes (g_out st')))
  | Aborted out _ =>
      out_lexemes out = history st ++ draws fuel (g_lex st) (g_distr st)
  | RunUndefined => True
  end.
Proof.
  revert st. induction fuel as [|fuel IH]; intros st Hi; cbn [gen_loop].
  { cbn. by rewrite app_nil_r. }
  destruct (gen_step st) as [st1|st1|out d1|] eqn:Hstep; [| | |done].
  - apply gen_step_Running in Hstep as (lex & d' & Hnext & _ & _ & ->).
    cbn [draws]. rewrite Hnext.
    match goal with |- context [gen_loop fuel ?s] => set (st1 := s) end.
    assert (history st1 = history st ++ [lex]) as Hh.
    { unfold history, st1. cbn [g_out g_lex]. rewrite out_lexemes_app.
      by destruct (is_punctation lex). }
    assert (g_i st1 = Z.of_nat (length (out_lexemes (g_out st1)))) as Hi1.
    { unfold st1. cbn [g_i g_out]. rewrite out_lexemes_app, length_app.
      destruct (is_punctation lex); cbn; lia. }
    specialize (IH st1 Hi1). rewrite Hh in IH.
    change (g_lex st1) with lex in IH. change (g_distr st1) with d' in IH.
    destruct (gen_loop fuel st1) as [st2|st2|out2 d2|]; [| | |done].
    + by rewrite IH, <-app_assoc.
    + destruct IH as (n & Hlex & Hlen & Hi2). exists (S n).
      cbn [draws]. rewrite Hnext. cbn [length].
      split_and!; [by rewrite Hlex, <-app_assoc|by rewrite Hlen|done].
    + by rewrite IH, <-app_assoc.
  - apply gen_step_Stopped in Hstep as (d' & Hnext & _ & ->).
    exists 1%nat. cbn [draws g_out g_i]. rewrite Hnext.
    rewrite out_lexemes_app. unfold history. rewrite <-app_assoc.
    split_and!; [done|done|]. rewrite !length_app. cbn. lia.
  - apply gen_step_Aborted in Hstep as [Hnext ->].
    cbn [draws]. rewrite Hnext, out_lexemes_app, app_nil_r. done.
Qed.

(** What a run has written is laid out from the lexemes it holds. *)
Lemma run_output_format fuel d r :
  main_generate fuel d = Some r →
  run_output r =
    format (run_lexemes r)
      ++ (if r is Stopped _ then [OEndl] else []).
Proof.
  apply (main_generate_rule
    (λ s, g_out s ++ [OLex (g_lex s)] = format (history s))
    (λ r, run_output r =
            format (run_lexemes r) ++ (if r is Stopped _ then [OEndl] else []))).
  - done.
  - intros s s' Hs (lex & d' & _ & _ & _ & ->)%gen_step_Running.
    unfold history in *. cbn [g_out g_lex]. rewrite out_lexemes_app.
    assert (out_lexemes
              (OLex (g_lex s) :: (if is_punctation lex then [] else [OSpace]))
            = [g_lex s]) as -> by by destruct (is_punctation lex).
    rewrite format_snoc by (by destruct (out_lexemes (g_out s))).
    rewrite <-Hs. destruct (is_punctation lex); rewrite <-?app_assoc;
      reflexivity.
  - intros s Hs. cbn. by rewrite app_nil_r.
  - intros s r' Hs Hstep Hr. destruct r' as [s'|s'|out d'|].
    + by destruct (Hr s').
    + apply gen_step_Stopped in Hstep as (d' & _ & _ & ->).
      cbn [run_output run_lexemes g_out].
      assert (out_lexemes
                (g_out s ++ [OLex (g_lex s); OLex kTerminatorLex; OEndl])
              = history s ++ [kTerminatorLex]) as ->.
      { unfold history. by rewrite out_lexemes_app, <-app_assoc. }
      rewrite format_snoc by (unfold history; by destruct (out_lexemes _)).
      rewrite <-Hs. change (is_punctation kTerminatorLex) with true.
      rewrite <-?app_assoc. reflexivity.
    + apply gen_step_Aborted in Hstep as [_ ->].
      cbn [run_output run_lexemes]. rewrite out_lexemes_app, app_nil_r.
      by rewrite Hs.
    + done.
  - done.
  - done.
Qed.

(** X5: what [main] writes is the layout of the lexemes [nextLex] returns
    to it. The lexemes are those of the successive draws, the first made
    on the starting lexeme and each further one on the lexeme drawn
    before. After [fuel] turns of a run that goes on, what has been
    written, with the lexeme about to be written, is the layout of the
    first [fuel + 1] of them; a run that stops has written the layout of
    as many of them as its counter says, and then the end of the line; a
    run that aborts has written the layout of all the lexemes drawn
    before the draw that failed. *)
Theorem output_is_layout_of_lexemes fuel d r :
  main_generate fuel d = Some r →
  match r with
  | Running st =>
      history st = draws (S fuel) kStartingLex d ∧
      length (draws (S fuel) kStartingLex d) = S fuel ∧
      g_out st ++ [OLex (g_lex st)]
        = format (draws (S fuel) kStartingLex d)
  | Stopped st =>
      let n := Z.to_nat (g_i st) in
      (n ≤ S fuel)%nat ∧
      length (draws n kStartingLex d) = n ∧
      g_out st = format (draws n kStartingLex d) ++ [OEndl]
  | Aborted out _ =>
      (length (draws (S fuel) kStartingLex d) ≤ fuel)%nat ∧
      out = format (draws (S fuel) kStartingLex d)
  | RunUndefined => True
  end.
Proof.
  intros Hgen. pose proof (run_output_format _ _ _ Hgen) as Hout.
  revert Hgen Hout. unfold main_generate.
  destruct (Nat.eqb (uniqueLexCount d) 0); [done|].
  cbn [draws].
  destruct (nextLex kStartingLex d) as [[lex0| |] d0] eqn:Hnext;
    intros [= <-]; [|cbn; split; [lia|done]|done].
  set (st0 := {| g_distr := d0; g_lex := lex0; g_i := 0; g_out := [] |}).
  assert (∀ n, match gen_loop n st0 with
               | Running st' => history st' = lex0 :: draws n lex0 d0
               | Stopped st' =>
                   ∃ k : nat,
                     out_lexemes (g_out st') = lex0 :: draws k lex0 d0 ∧
                     length (draws k lex0 d0) = k ∧
                     g_i st' = Z.of_nat (length (out_lexemes (g_out st')))
               | Aborted out _ => out_lexemes out = lex0 :: draws n lex0 d0
               | RunUndefined => True
               end) as Hall.
  { intros n. exact (gen_loop_draws n st0 eq_refl). }
  pose proof (Hall fuel) as Hdraws.
  pose proof (gen_loop_Stopped fuel st0) as Hstop.
  pose proof (gen_loop_last fuel st0) as Hlast.
  destruct (gen_loop fuel st0) as [st|st|out d1|] eqn:Hloop;
    cbn [run_output run_lexemes]; [| | |done].
  - intros Hout. rewrite <-Hdraws.
    split_and!; [done| |by rewrite app_nil_r in Hout].
    destruct (gen_loop_Running fuel st0 st) as [[Hi _] Hfuel]; [|done|].
    { split; [done|]. intros k. unfold kSoftLexLimit. cbn. lia. }
    unfold history. rewrite length_app. cbn [g_i st0 length] in *. lia.
  - destruct Hdraws as (n & Hlex & Hlen & Hi).
    assert (draws (S n) kStartingLex d = lex0 :: draws n lex0 d0) as Hd
      by (cbn [draws]; by rewrite Hnext).
    intros Hout. cbv zeta. rewrite Hi, Hlex, Nat2Z.id. cbn [length].
    rewrite Hlen, Hd. rewrite Hlex in Hout. cbn [length]. rewrite Hlen.
    split_and!; [|done|done].
    destruct (Hstop st eq_refl) as (turns & st1 & Hlt & Hrun & Hend).
    pose proof (Hall turns) as Hd1. rewrite Hrun in Hd1.
    apply gen_step_Stopped in Hend as (d' & _ & _ & ->).
    cbn [g_out] in Hlex. rewrite out_lexemes_app in Hlex.
    fold (history st1) in Hlex.
    change (out_lexemes [OLex (g_lex st1); OLex kTerminatorLex; OEndl])
      with [g_lex st1; kTerminatorLex] in Hlex.
    apply (f_equal length) in Hlex, Hd1.
    unfold history in Hd1. rewrite !length_app in *.
    cbn [length] in *. rewrite Hlen in Hlex.
    pose proof (length_draws turns lex0 d0). lia.
  - intros Hout. rewrite app_nil_r, Hdraws in Hout. split; [|done].
    destruct (Hlast _ eq_refl) as (n & st1 & Hn & Hrun & Hend); [done|].
    pose proof (Hall n) as Hd1. rewrite Hrun in Hd1.
    apply gen_step_Aborted in Hend as [Hab ->].
    rewrite out_lexemes_app in Hdraws.
    change (out_lexemes (g_out st1) ++ out_lexemes [OLex (g_lex st1)])
      with (history st1) in Hdraws.
    rewrite Hd1 in Hdraws. injection Hdraws as Hdraws.
    rewrite <-Hdraws. pose proof (length_draws n lex0 d0). cbn [length]. lia.
Qed.

(** X6: when [main] stops, the number of lexemes it reports, the final value
    of [i], is the number of lexemes it has written; while it runs, [i]
    is the number of lexemes written so far. *)
Theorem reported_count_is_lexemes_written fuel d r :
  main_generate fuel d = Some r →
  match r with
  | Running st | Stopped st =>
      g_i st = Z.of_nat (length (out_lexemes (g_out st)))
  | Aborted _ _ | RunUndefined => True
  end.
Proof.
  apply (main_generate_rule
    (λ s, g_i s = Z.of_nat (length (out_lexemes (g_out s))))
    (λ r, match r with
          | Running st | Stopped st =>
              g_i st = Z.of_nat (length (out_lexemes (g_out st)))
          | Aborted _ _ | RunUndefined => True
          end)); [done| |done| |done..].
  - intros s s' Hs (lex & d' & _ & _ & _ & ->)%gen_step_Running.
    cbn [g_i g_out]. rewrite out_lexemes_app, length_app.
    assert (out_lexemes
              (OLex (g_lex s) :: (if is_punctation lex then [] else [OSpace]))
            = [g_lex s]) as -> by by destruct (is_punctation lex).
    cbn [length]. lia.
  - intros s r' Hs Hstep Hr. destruct r' as [s'|s'| |]; [|  |done..].
    { by destruct (Hr s'). }
    apply gen_step_Stopped in Hstep as (d' & _ & _ & ->).
    cbn [g_i g_out]. rewrite out_lexemes_app, length_app. cbn. lia.
Qed.

Lemma nextLex_Ok_inv curLex d lex d' :
  nextLex curLex d = (Ok lex, d') →
  ∃ S, m_model d !! curLex = Some S ∧ lex ∈ S ∧ m_model d' = m_model d.
Proof.
  intros Hnext.
  destruct (m_model d !! curLex) as [[|lex0 S]|] eqn:Hk.
  - by rewrite (nextLex_exhausted _ _ Hk) in Hnext.
  - destruct (nextLex_known_frame curLex d (lex0 :: S) Hk)
      as (_ & Hm & Hin); [done|]. rewrite Hnext in Hm, Hin.
    exists (lex0 :: S). eauto.
  - by rewrite (nextLex_unknown _ _ Hk) in Hnext.
Qed.

(** The turns of a walk on a closed model: the model stays, the lexeme
    drawn is a successor of the current one and has an entry. *)
Lemma walk_step m st lex d' :
  closed m → m_model (g_distr st) = m →
  nextLex (g_lex st) (g_distr st) = (Ok lex, d') →
  m_model d' = m ∧ is_Some (m !! lex) ∧
  ∃ S, m !! g_lex st = Some S ∧ lex ∈ S.
Proof.
  intros Hcl <- (S & Hk & Hin & Hm)%nextLex_Ok_inv.
  split_and!; [done|by eapply Hcl|eauto].
Qed.

Lemma adjacent_snoc prev ls l :
  adjacent prev (ls ++ [l]) =
    adjacent prev ls ++ [(default prev (last ls), l)].
Proof. by rewrite adjacent_app. Qed.

(** X7: the generator only writes what it has read: in a run on the model
    built from a text, every lexeme drawn comes, somewhere in the text,
    right after the lexeme drawn before it, and the first one right after
    the starting lexeme, which stands before the text. *)
Theorem generated_neighbours_are_read text g (st : input_state) fuel r :
  main_input text g = Ok st →
  main_generate fuel (distr st) = Some r →
  adjacent kStartingLex (run_lexemes r)
    ⊆ adjacent kStartingLex (lexemes text).
Proof.
  intros Hin. set (m := m_model (distr st)).
  set (calls := adjacent kStartingLex (lexemes text)).
  assert (closed m) as Hcl by by eapply main_input_closed.
  assert (∀ k S x, m !! k = Some S → x ∈ S → (k, x) ∈ calls) as Hedge.
  { intros k S x. unfold m. rewrite (main_input_lookup _ _ _ k Hin).
    case_decide; [|done]. intros [= <-]. by rewrite elem_of_successors_in. }
  apply (main_generate_rule
    (λ s, m_model (g_distr s) = m ∧ last (history s) = Some (g_lex s) ∧
          adjacent kStartingLex (history s) ⊆ calls)
    (λ r, adjacent kStartingLex (run_lexemes r) ⊆ calls)).
  - intros lex d' _ (S & Hk & HS & Hm)%nextLex_Ok_inv.
    split_and!; [done..|]. intros p ->%list_elem_of_singleton. eauto.
  - intros s s' (Hm & Hlast & Hsub) (lex & d' & Hnext & _ & _ & ->)%gen_step_Running.
    destruct (walk_step m s lex d' Hcl Hm Hnext) as (Hm' & _ & S & Hk & HS).
    unfold history in *. cbn [g_distr g_lex g_out]. rewrite out_lexemes_app.
    assert (out_lexemes
              (OLex (g_lex s) :: (if is_punctation lex then [] else [OSpace]))
            = [g_lex s]) as -> by by destruct (is_punctation lex).
    split_and!; [done|by rewrite last_snoc|].
    rewrite adjacent_snoc, Hlast. intros p [Hp|Hp]%elem_of_app; [auto|].
    apply list_elem_of_singleton in Hp as ->. eauto.
  - intros s (_ & _ & Hsub). done.
  - intros s r' (Hm & Hlast & Hsub) Hstep Hr. destruct r' as [s'|s'|out d'|].
    + by destruct (Hr s').
    + apply gen_step_Stopped in Hstep as (d' & Hnext & _ & ->).
      destruct (walk_step m s _ d' Hcl Hm Hnext) as (_ & _ & S & Hk & HS).
      cbn [run_lexemes g_out].
      assert (out_lexemes
                (g_out s ++ [OLex (g_lex s); OLex kTerminatorLex; OEndl])
              = history s ++ [kTerminatorLex]) as ->.
      { unfold history. by rewrite out_lexemes_app, <-app_assoc. }
      rewrite adjacent_snoc, Hlast. intros p [Hp|Hp]%elem_of_app; [auto|].
      apply list_elem_of_singleton in Hp as ->. eauto.
    + apply gen_step_Aborted in Hstep as [_ ->]. cbn [run_lexemes].
      by rewrite out_lexemes_app.
    + cbn. intros p Hp. by apply elem_of_nil in Hp.
  - cbn. intros d' _ _ p Hp. by apply elem_of_nil in Hp.
  - cbn. intros p Hp. by apply elem_of_nil in Hp.
Qed.

(** X8: when the last lexeme of the text also occurs before in it, the
    starting lexeme counted as coming first, as it does in a text that
    ends with a period, no run of the generator on the model built from
    the text aborts. *)
Theorem generation_never_aborts text g (st : input_state) :
  main_input text g = Ok st →
  (∀ l, last (lexemes text) = Some l →
        l ∈ take (length (lexemes text)) (kStartingLex :: lexemes text)) →
  ∀ fuel out d, main_generate fuel (distr st) ≠ Some (Aborted out d).
Proof.
  intros Hin Hlast fuel out d Hgen. set (m := m_model (distr st)).
  assert (closed m) as Hcl by by eapply main_input_closed.
  assert (∀ k, is_Some (m !! k) → ∀ d0 d1,
            m_model d0 = m → nextLex k d0 ≠ (Abort, d1)) as Hlive.
  { intros k Hk d0 d1 Hm Hnext.
    assert ((nextLex k d0).1 = Abort) as Hab by by rewrite Hnext.
    apply nextLex_Abort_iff in Hab. rewrite Hm in Hab.
    destruct Hab as [Hab|Hab]; [by rewrite Hab in Hk|].
    apply (main_input_dead_end _ _ _ k Hin) in Hab as [Hl Hnin]. auto. }
  cut (∀ out' d', Aborted out d ≠ Aborted out' d');
    [intros HQ; by apply (HQ out d)|].
  revert Hgen.
  apply (main_generate_rule
    (λ s, m_model (g_distr s) = m ∧ is_Some (m !! g_lex s))
    (λ r, ∀ out d, r ≠ Aborted out d) fuel (distr st)
    (Aborted out d)); try done.
  - intros lex d' Hn Hnext.
    apply nextLex_Ok_inv in Hnext as (S & Hk & HS & Hm).
    split; [done|]. by eapply Hcl.
  - intros s s' [Hm Hk] (lex & d' & Hnext & _ & _ & ->)%gen_step_Running.
    by destruct (walk_step m s lex d' Hcl Hm Hnext) as (? & ? & _).
  - intros s r' [Hm Hk] Hstep _ out' d'' ->.
    apply gen_step_Aborted in Hstep as [Hnext _]. by eapply Hlive.
  - intros d' Hn Hnext out' d'' _. eapply Hlive; [|done..].
    destruct (lexemes text) as [|first rest] eqn:Hl.
    + by apply (main_input_no_lexeme _ _ _ Hin) in Hl.
    + destruct (main_input_sentinel _ _ _ _ _ Hin Hl) as [S HS].
      unfold m. by rewrite HS.
Qed.

End RunFacts.

(** ** The matcher and the lexer *)

Section MatcherFacts.
Import Regex.

(** Every match consumes a piece of the target, made of characters the
    expression can consume, and not empty when the expression
    advances. *)
Lemma ends_consumes r c e :
  e ∈ ends r c →
  ∃ consumed,
    c.2 = consumed ++ e.2 ∧ e.1 = (c.1 + length consumed)%nat ∧
    Forall (λ a, consumes r a = true) consumed ∧
    (advances r = true → consumed ≠ []).
Proof.
  revert c e. induction r as [p|r1 IH1 r2 IH2|r1 IH1 r2 IH2|r1 IH1| |];
    intros [pos s] e; cbn [ends consumes advances fst snd].
  - destruct s as [|a t]; [by intros ?%elem_of_nil|].
    destruct (p a) eqn:Hp; [|by intros ?%elem_of_nil].
    intros ->%list_elem_of_singleton. exists [a].
    split_and!; [done|cbn; lia|by repeat constructor|done].
  - rewrite list_elem_of_In, in_flat_map.
    intros (c1 & Hc1%list_elem_of_In & He%list_elem_of_In).
    destruct (IH1 _ _ Hc1) as (k1 & E1 & P1 & F1 & A1).
    destruct (IH2 _ _ He) as (k2 & E2 & P2 & F2 & A2).
    cbn [fst snd] in *. exists (k1 ++ k2). split_and!.
    + by rewrite <-app_assoc, <-E2.
    + rewrite length_app. lia.
    + apply Forall_app. split; eapply Forall_impl; eauto;
        cbn; intros a ->; by rewrite ?orb_true_r.
    + intros [H|H]%orb_true_iff; [specialize (A1 H)|specialize (A2 H)];
        by destruct k1, k2.
  - intros [He|He]%elem_of_app.
    + destruct (IH1 _ _ He) as (k & E & P & F & A). exists k.
      split_and!; [done..| |].
      * eapply Forall_impl; eauto. cbn. by intros a ->.
      * by intros [H _]%andb_true_iff; auto.
    + destruct (IH2 _ _ He) as (k & E & P & F & A). exists k.
      split_and!; [done..| |].
      * eapply Forall_impl; eauto. cbn. intros a ->. by rewrite orb_true_r.
      * by intros [_ H]%andb_true_iff; auto.
  - generalize (length s). intros fuel. revert pos s e.
    induction fuel as [|fuel IHf]; intros pos s e;
      rewrite list_elem_of_In, in_flat_map;
      intros (c1 & Hc1%list_elem_of_In & He%list_elem_of_In);
      destruct (IH1 _ _ Hc1) as (k1 & E1 & P1 & F1 & A1);
      cbn [fst snd] in *.
    + apply list_elem_of_singleton in He as ->. by exists k1.
    + apply elem_of_app in He as [He|He].
      * destruct c1 as [pos1 s1].
        destruct (IHf _ _ _ He) as (k2 & E2 & P2 & F2 & A2).
        cbn [fst snd] in *. exists (k1 ++ k2). split_and!.
        -- by rewrite <-app_assoc, <-E2.
        -- rewrite length_app. lia.
        -- by apply Forall_app.
        -- intros H. specialize (A1 H). by destruct k1.
      * apply list_elem_of_singleton in He as ->. by exists k1.
  - destruct (Nat.eqb pos 0); [|by intros ?%elem_of_nil].
    intros ->%list_elem_of_singleton. exists []. cbn.
    split_and!; [done|lia|done|done].
  - destruct s; [|by intros ?%elem_of_nil].
    intros ->%list_elem_of_singleton. exists []. cbn.
    split_and!; [done|lia|done|done].
Qed.

Lemma regex_search_Some r pos s k n :
  regex_search r pos s = Some (k, n) →
  ∃ skipped consumed rest,
    s = skipped ++ consumed ++ rest ∧
    length skipped = k ∧ length consumed = n ∧
    Forall (λ a, consumes r a = true) consumed ∧
    (advances r = true → consumed ≠ []).
Proof.
  revert pos k. induction s as [|a t IH]; intros pos k; cbn [regex_search].
  - destruct (ends r (pos, [])) as [|e es] eqn:He; [done|].
    intros [= <- <-].
    destruct (ends_consumes r (pos, []) e) as (c & E & P & F & A);
      [rewrite He; by left|]. cbn [fst snd] in *.
    exists [], c, e.2. split_and!; [done|done|lia|done|done].
  - destruct (ends r (pos, a :: t)) as [|e es] eqn:He.
    + destruct (regex_search r (S pos) t) as [[k' n']|] eqn:Hs; [|done].
      intros [= <- <-].
      destruct (IH _ _ Hs) as (sk & c & rest & -> & Hk & Hn & F & A).
      exists (a :: sk), c, rest. split_and!; [done|by cbn; rewrite Hk|done..].
    + intros [= <- <-].
      destruct (ends_consumes r (pos, a :: t) e) as (c & E & P & F & A);
        [rewrite He; by left|]. cbn [fst snd] in *.
      exists [], c, e.2. split_and!; [done|done|lia|done|done].
Qed.

Lemma tokens_from_shape fuel r pos s :
  advances r = true →
  Forall (λ tok, tok ≠ EmptyString ∧
                 Forall (λ a, consumes r a = true) (list_ascii_of_string tok))
    (tokens_from fuel r pos s) ∧
  concat (list_ascii_of_string <$> tokens_from fuel r pos s) `sublist_of` s ∧
  (length (tokens_from fuel r pos s) ≤ length s)%nat.
Proof.
  intros Hadv. revert pos s. induction fuel as [|fuel IH]; intros pos s;
    cbn [tokens_from].
  { split_and!; [constructor|apply sublist_nil_l|cbn; lia]. }
  destruct (regex_search r pos s) as [[k n]|] eqn:Hs;
    [|split_and!; [constructor|apply sublist_nil_l|cbn; lia]].
  apply regex_search_Some in Hs as (sk & c & rest & -> & <- & <- & F & A).
  specialize (A Hadv).
  rewrite drop_app_length, take_app_length, drop_app_length.
  destruct (IH (pos + length sk + length c)%nat rest) as (IH1 & IH2 & IH3).
  cbn [fmap list_fmap concat length].
  rewrite list_ascii_of_string_of_list_ascii. split_and!.
  - constructor; [|done]. split; [|by rewrite list_ascii_of_string_of_list_ascii].
    intros Hnil. apply (f_equal list_ascii_of_string) in Hnil.
    by rewrite list_ascii_of_string_of_list_ascii in Hnil.
  - apply sublist_inserts_l, sublist_app; [done|apply IH2].
  - assert (0 < length c)%nat by (destruct c; [done|cbn; lia]).
    rewrite !length_app. lia.
Qed.

Lemma ends_none r pos s :
  advances r = true → Forall (λ a, consumes r a = false) s →
  ends r (pos, s) = [].
Proof.
  intros Hadv Hs. apply elem_of_nil_inv. intros e He.
  destruct (ends_consumes r _ e He) as (c & E & _ & F & A).
  specialize (A Hadv). destruct c as [|a c]; [done|]. cbn [snd] in E.
  rewrite E in Hs. apply Forall_cons in Hs as [Ha _].
  apply Forall_cons in F as [Ha' _]. congruence.
Qed.

Lemma regex_search_None r pos s :
  advances r = true → Forall (λ a, consumes r a = false) s →
  regex_search r pos s = None.
Proof.
  intros Hadv. revert pos. induction s as [|a t IH]; intros pos Hs;
    cbn [regex_search]; rewrite ends_none by done; [done|].
  apply Forall_cons in Hs as [_ Ht]. by rewrite IH.
Qed.

Lemma ends_Plus_first r c c1 : c1 ∈ ends r c → c1 ∈ ends (Plus r) c.
Proof.
  intros Hc1. cbn [ends].
  destruct (length c.2); rewrite list_elem_of_In, in_flat_map;
    exists c1; (split; [by apply list_elem_of_In|]);
    apply in_or_app; right; by left.
Qed.

Lemma tokens_from_fuel r pos s fuel1 fuel2 :
  advances r = true →
  (length s ≤ fuel1)%nat → (length s ≤ fuel2)%nat →
  tokens_from fuel1 r pos s = tokens_from fuel2 r pos s.
Proof.
  intros Hadv. revert fuel2 pos s.
  assert (∀ pos fuel, tokens_from fuel r pos [] = []) as Hnil.
  { intros pos [|fuel]; [done|]. cbn [tokens_from].
    destruct (regex_search r pos []) as [[k n]|] eqn:Hs; [|done].
    apply regex_search_Some in Hs as (sk & c & rest & E & _ & _ & _ & A).
    specialize (A Hadv). by destruct sk, c. }
  induction fuel1 as [|fuel1 IH]; intros fuel2 pos s H1 H2.
  { destruct s; [by rewrite !Hnil|cbn in H1; lia]. }
  destruct fuel2 as [|fuel2].
  { destruct s; [by rewrite !Hnil|cbn in H2; lia]. }
  cbn [tokens_from].
  destruct (regex_search r pos s) as [[k n]|] eqn:Hs; [|done].
  apply regex_search_Some in Hs as (sk & c & rest & -> & <- & <- & _ & A).
  specialize (A Hadv).
  assert (0 < length c)%nat by (destruct c; [done|cbn; lia]).
  rewrite !length_app in H1, H2.
  rewrite drop_app_length, drop_app_length. f_equal. apply IH; lia.
Qed.

End MatcherFacts.

Lemma length_list_ascii_of_string s :
  length (list_ascii_of_string s) = String.length s.
Proof. induction s as [|a s IH]; [done|]. cbn. by rewrite IH. Qed.

Lemma list_ascii_of_string_app s1 s2 :
  list_ascii_of_string (s1 +:+ s2)
    = list_ascii_of_string s1 ++ list_ascii_of_string s2.
Proof.
  induction s1 as [|a s1 IH]; [done|].
  change (String a s1 +:+ s2) with (String a (s1 +:+ s2)).
  cbn [list_ascii_of_string app]. by rewrite IH.
Qed.

Lemma consumes_lexRx a :
  consumes lexRx a = Ctype.isword a || Ctype.ispunct a.
Proof.
  cbn [consumes lexRx w dot].
  destruct (Ascii.eqb_spec a "-") as [->|]; [done|].
  destruct (Ascii.eqb_spec a "'") as [->|]; [done|].
  destruct (Ascii.eqb_spec "." a) as [<-|]; [done|].
  destruct (Ctype.isword a), (Ctype.ispunct a); done.
Qed.

Lemma ends_Alt r1 r2 c :
  Regex.ends (Regex.Alt r1 r2) c = Regex.ends r1 c ++ Regex.ends r2 c.
Proof. done. Qed.

Lemma ends_Bracket p pos a t :
  Regex.ends (Regex.Bracket p) (pos, a :: t)
    = if p a then [(S pos, t)] else [].
Proof. done. Qed.

Lemma lexRx_matches_at pos a t :
  Ctype.isword a || Ctype.ispunct a = true →
  Regex.ends lexRx (pos, a :: t) ≠ [].
Proof.
  intros Ha Hnil.
  assert (∀ e, e ∉ Regex.ends lexRx (pos, a :: t)) as Hno
    by (intros e; rewrite Hnil; apply not_elem_of_nil).
  unfold lexRx in Hno. setoid_rewrite ends_Alt in Hno.
  setoid_rewrite ends_Alt in Hno. setoid_rewrite ends_Alt in Hno.
  destruct (Ctype.isword a) eqn:Hw.
  - apply (Hno (S pos, t)). apply elem_of_app. right. apply elem_of_app.
    left. apply (ends_Plus_first w (pos, a :: t)).
    unfold w. rewrite ends_Bracket, Hw. by left.
  - cbn in Ha. apply (Hno (S pos, t)). do 3 (apply elem_of_app; right).
    rewrite ends_Bracket, Ha. by left.
Qed.

Lemma lexRx_search_Some pos s :
  Exists (λ a, Ctype.isword a || Ctype.ispunct a = true) s →
  is_Some (Regex.regex_search lexRx pos s).
Proof.
  revert pos. induction s as [|a t IH]; intros pos Hex;
    [by apply Exists_nil in Hex|].
  cbn [Regex.regex_search].
  destruct (Regex.ends lexRx (pos, a :: t)) as [|e es] eqn:He; [|by eexists].
  apply Exists_cons in Hex as [Ha|Ht].
  { by apply (lexRx_matches_at pos a t) in Ha. }
  destruct (IH (S pos) Ht) as [[k n] ->]. by eexists.
Qed.

Lemma lex_chunk_nil chunk :
  lex_chunk chunk = [] ↔
  Forall (λ a, Ctype.isword a || Ctype.ispunct a = false)
    (list_ascii_of_string chunk).
Proof.
  unfold lex_chunk, Regex.sregex_tokens.
  rewrite <-length_list_ascii_of_string.
  generalize (list_ascii_of_string chunk). intros s. split.
  - intros Hnil. apply Forall_forall. intros a Ha.
    destruct (Ctype.isword a || Ctype.ispunct a) eqn:E; [|done].
    destruct s as [|a0 t]; [by apply elem_of_nil in Ha|].
    cbn [length Regex.tokens_from] in Hnil.
    destruct (lexRx_search_Some 0 (a0 :: t)) as [[k n] Hs].
    { apply Exists_exists. eauto. }
    by rewrite Hs in Hnil.
  - intros Hs. destruct (length s); [done|]. cbn [Regex.tokens_from].
    rewrite regex_search_None; [done|done|].
    eapply Forall_impl; [done|]. cbv beta. intros a.
    by rewrite consumes_lexRx.
Qed.

(** X9: the lexemes of a chunk: none is empty; each is made of word and
    punctuation characters only; put end to end they are what is left of
    the chunk when some of its characters are dropped; there are no more
    of them than the chunk has characters, and allowing the iteration
    more matches than that changes nothing; and the chunk has no lexeme
    exactly when none of its characters is a word or punctuation
    character. *)
Theorem lexemes_of_chunk chunk :
  Forall (λ tok, tok ≠ EmptyString ∧
            Forall (λ a, Ctype.isword a || Ctype.ispunct a = true)
              (list_ascii_of_string tok))
    (lex_chunk chunk) ∧
  concat (list_ascii_of_string <$> lex_chunk chunk)
    `sublist_of` list_ascii_of_string chunk ∧
  (length (lex_chunk chunk) ≤ String.length chunk)%nat ∧
  (∀ more, Regex.tokens_from (String.length chunk + more) lexRx 0
             (list_ascii_of_string chunk) = lex_chunk chunk) ∧
  (lex_chunk chunk = [] ↔
   Forall (λ a, Ctype.isword a || Ctype.ispunct a = false)
     (list_ascii_of_string chunk)).
Proof.
  unfold lex_chunk at 1 2 3 4, Regex.sregex_tokens.
  destruct (tokens_from_shape (String.length chunk) lexRx 0
              (list_ascii_of_string chunk)) as (H1 & H2 & H3); [done|].
  split_and!; [|done| | |apply lex_chunk_nil].
  - eapply Forall_impl; [done|]. cbv beta. intros tok [Hne Hall].
    split; [done|]. eapply Forall_impl; [done|]. cbv beta. intros a.
    by rewrite consumes_lexRx.
  - by rewrite length_list_ascii_of_string in H3.
  - intros more. apply tokens_from_fuel; [done|..];
      rewrite length_list_ascii_of_string; lia.
Qed.

(** ** The lexer as a scanner *)

Lemma ends_Cat r1 r2 c :
  Regex.ends (Regex.Cat r1 r2) c
    = flat_map (Regex.ends r2) (Regex.ends r1 c).
Proof. done. Qed.

Lemma ends_Plus_run p pos u rest :
  Forall (λ a, p a = true) u → u ≠ [] →
  match rest with [] => True | a :: _ => p a = false end →
  ∃ tl, Regex.ends (Regex.Plus (Regex.Bracket p)) (pos, u ++ rest)
          = ((pos + length u)%nat, rest) :: tl.
Proof.
  intros Hu Hne Hrest. cbn [Regex.ends snd].
  assert (length u ≤ S (length (u ++ rest)))%nat as Hfuel
    by (rewrite length_app; lia).
  revert Hfuel. generalize (length (u ++ rest)). intros fuel.
  revert pos fuel. induction u as [|a u IH]; intros pos fuel Hfuel; [done|].
  apply Forall_cons in Hu as [Ha Hu].
  destruct u as [|b u].
  - destruct fuel as [|[|fuel]]; cbn; rewrite Ha; cbn;
      destruct rest as [|c rest]; cbn; rewrite ?Hrest; cbn;
      replace (pos + 1)%nat with (S pos) by lia; by eexists.
  - destruct fuel as [|fuel]; [cbn in Hfuel; lia|].
    destruct (IH Hu ltac:(done) (S pos) fuel) as [tl Htl];
      [cbn in *; lia|].
    cbn in Htl |- *. rewrite Ha. cbn. rewrite app_nil_r.
    rewrite Htl. cbn.
    replace (pos + S (S (length u)))%nat with (S (pos + S (length u)))
      by lia.
    by eexists.
Qed.

Lemma ends_blocked r pos s :
  advances r = true →
  match s with [] => True | a :: _ => consumes r a = false end →
  Regex.ends r (pos, s) = [].
Proof.
  intros Hadv Hs. apply elem_of_nil_inv. intros e He.
  destruct (ends_consumes r _ e He) as (c & E & _ & F & A).
  specialize (A Hadv). destruct c as [|a c]; [done|]. cbn [snd] in E.
  subst s. apply Forall_cons in F as [Ha _]. congruence.
Qed.

Lemma flat_map_nil {A B : Type} (f : A → list B) l :
  (∀ x, x ∈ l → f x = []) → flat_map f l = [].
Proof.
  induction l as [|x l IH]; intros Hf; [done|]. cbn [flat_map].
  rewrite Hf by by left. apply IH. intros y Hy. apply Hf. by right.
Qed.

Lemma tokens_from_head r fuel pos tok rest tl :
  Regex.ends r (pos, tok ++ rest) = ((pos + length tok)%nat, rest) :: tl →
  Regex.tokens_from (S fuel) r pos (tok ++ rest) =
    string_of_list_ascii tok
      :: Regex.tokens_from fuel r (pos + length tok) rest.
Proof.
  intros He. cbn [Regex.tokens_from].
  assert (Regex.regex_search r pos (tok ++ rest)
          = Some (0%nat, length tok)) as ->.
  { destruct (tok ++ rest); cbn [Regex.regex_search]; rewrite He;
      cbn [fst]; do 2 f_equal; lia. }
  rewrite drop_0, take_app_length, drop_app_length.
  do 2 f_equal. lia.
Qed.

(** The first alternative of the pattern, a word, a hyphen or an
    apostrophe and a word, does not match where the word is not followed
    by such a character and a word character. *)
Lemma compound_fails pos u rest :
  Forall (λ a, Ctype.isword a = true) u → u ≠ [] →
  word_ends rest = true → joins rest = false →
  Regex.ends
    (Regex.Cat (Regex.Plus w)
       (Regex.Cat (Regex.Bracket (λ c, Ascii.eqb c "-" || Ascii.eqb c "'"))
          (Regex.Plus w)))
    (pos, u ++ rest) = [].
Proof.
  intros Hu Hne Hends Hjoin. rewrite ends_Cat. apply flat_map_nil.
  intros [p s] He.
  destruct (ends_consumes _ _ _ He) as (c & E & _ & F & A).
  cbn [fst snd consumes w] in *. specialize (A eq_refl).
  rewrite ends_Cat.
  assert (s = rest ∨ ∃ a t, s = a :: t ∧ Ctype.isword a = true) as [->|Hs].
  { clear He A. revert c E F. induction u as [|a u IH]; intros c E F.
    - destruct c as [|a c]; [by left|]. cbn in E. subst rest.
      apply Forall_cons in F as [Ha _]. cbn in Hends.
      by rewrite Ha in Hends.
    - apply Forall_cons in Hu as [Ha Hu]. destruct c as [|a' c].
      + right. exists a, (u ++ rest). cbn in E. by subst s.
      + injection E as <- E. apply Forall_cons in F as [_ F].
        destruct u as [|b u].
        * cbn in E. destruct c as [|b c]; [by left|].
          subst rest. apply Forall_cons in F as [Hb _]. cbn in Hends.
          by rewrite Hb in Hends.
        * by eapply IH. }
  - destruct rest as [|a [|b rest]]; [done| |].
    + rewrite ends_Bracket. destruct (_ || _); [|done].
      cbn [flat_map]. rewrite app_nil_r. by apply ends_blocked.
    + rewrite ends_Bracket. cbn [joins] in Hjoin.
      destruct (_ || _); [|done]. cbn [andb] in Hjoin.
      cbn [flat_map]. rewrite app_nil_r. by apply ends_blocked.
  - destruct Hs as (a & t & -> & Ha). rewrite ends_Bracket.
    assert (Ascii.eqb a "-" || Ascii.eqb a "'" = false) as ->; [|done].
    destruct (Ascii.eqb_spec a "-") as [->|]; [done|].
    destruct (Ascii.eqb_spec a "'") as [->|]; done.
Qed.

Lemma ends_triple p pos s :
  Regex.ends
    (Regex.Cat (Regex.Bracket p)
       (Regex.Cat (Regex.Bracket p) (Regex.Bracket p))) (pos, s) =
  match s with
  | a :: b :: c :: r => if p a && p b && p c then [(S (S (S pos)), r)] else []
  | _ => []
  end.
Proof.
  destruct s as [|a [|b [|c r]]]; cbn; [done|..].
  - by destruct (p a).
  - destruct (p a); [|done]. cbn. by destruct (p b).
  - destruct (p a); [|done]. cbn. destruct (p b); [|done]. cbn.
    by destruct (p c).
Qed.

Lemma ends_no_dots pos s :
  three_dots s = false →
  Regex.ends (Regex.Cat dot (Regex.Cat dot dot)) (pos, s) = [].
Proof.
  intros Hdots. unfold dot. rewrite ends_triple.
  destruct s as [|a [|b [|c r]]]; [done..|]. cbn [three_dots] in Hdots.
  by rewrite Hdots.
Qed.

Lemma word_ends_spec rest :
  word_ends rest = true →
  match rest with [] => True | a :: _ => Ctype.isword a = false end.
Proof. destruct rest; [done|]. cbn. by intros ?%negb_true_iff. Qed.

Lemma lexRx_ends_nil pos : Regex.ends lexRx (pos, []) = [].
Proof. by apply ends_blocked. Qed.

Lemma lexRx_ends_word pos u rest :
  Forall (λ a, Ctype.isword a = true) u → u ≠ [] →
  word_ends rest = true → joins rest = false →
  ∃ tl, Regex.ends lexRx (pos, u ++ rest)
          = ((pos + length u)%nat, rest) :: tl.
Proof.
  intros Hu Hne Hends Hjoin. unfold lexRx.
  rewrite ends_Alt, compound_fails, app_nil_l, ends_Alt by done.
  destruct (ends_Plus_run Ctype.isword pos u rest Hu Hne) as [tl Htl];
    [by apply word_ends_spec|].
  unfold w. rewrite Htl. by eexists.
Qed.

Lemma lexRx_ends_compound pos u sep v rest :
  Forall (λ a, Ctype.isword a = true) u → u ≠ [] →
  sep = "-"%char ∨ sep = "'"%char →
  Forall (λ a, Ctype.isword a = true) v → v ≠ [] →
  word_ends rest = true →
  ∃ tl, Regex.ends lexRx (pos, (u ++ sep :: v) ++ rest)
          = ((pos + length (u ++ sep :: v))%nat, rest) :: tl.
Proof.
  intros Hu Hune Hsep Hv Hvne Hends. unfold lexRx.
  rewrite ends_Alt, ends_Cat, <-app_assoc. cbn [app].
  destruct (ends_Plus_run Ctype.isword pos u (sep :: v ++ rest) Hu Hune)
    as [tl Htl]; [by destruct Hsep as [->| ->]|].
  destruct (ends_Plus_run Ctype.isword (S (pos + length u)) v rest Hv Hvne)
    as [tl' Htl']; [by apply word_ends_spec|].
  unfold w. rewrite Htl. cbn [flat_map]. rewrite ends_Cat, ends_Bracket.
  assert (Ascii.eqb sep "-" || Ascii.eqb sep "'" = true) as ->
    by by destruct Hsep as [->| ->].
  cbn [flat_map]. rewrite Htl'. rewrite length_app. cbn [length app].
  replace (pos + (length u + S (length v)))%nat
    with (S (pos + length u) + length v)%nat by lia.
  by eexists.
Qed.

Lemma lexRx_ends_ellipsis pos rest :
  ∃ tl, Regex.ends lexRx (pos, "."%char :: "."%char :: "."%char :: rest)
          = (S (S (S pos)), rest) :: tl.
Proof.
  unfold lexRx. rewrite !ends_Alt, ends_Cat.
  rewrite (ends_blocked (Regex.Plus w)) by done. cbn [flat_map app].
  unfold dot. rewrite ends_triple.
  change (Ascii.eqb "." "." && Ascii.eqb "." "." && Ascii.eqb "." ".")
    with true.
  by eexists.
Qed.

Lemma lexRx_ends_punct pos c rest :
  Ctype.ispunct c = true → Ctype.isword c = false →
  three_dots (c :: rest) = false →
  Regex.ends lexRx (pos, c :: rest) = [(S pos, rest)].
Proof.
  intros Hp Hw Hdots. unfold lexRx. rewrite !ends_Alt, ends_Cat.
  rewrite (ends_blocked (Regex.Plus w)) by done. cbn [flat_map app].
  rewrite ends_no_dots by done. by rewrite ends_Bracket, Hp.
Qed.

(** X10: the lexer as a scanner. What the token iterator does at each place of
    a chunk: it yields nothing at the end; it skips a character that is
    neither a word character nor punctuation; it takes a run of word
    characters whole, and together with a following hyphen or apostrophe
    and the run of word characters after it when there is one; it takes
    three periods together; and it takes any other punctuation character
    alone. So a chunk made of word characters is one lexeme. *)
Theorem lexer_rules fuel pos :
  Regex.tokens_from fuel lexRx pos [] = [] ∧
  (∀ a rest,
     Ctype.isword a = false → Ctype.ispunct a = false →
     Regex.tokens_from (S fuel) lexRx pos (a :: rest)
       = Regex.tokens_from (S fuel) lexRx (S pos) rest) ∧
  (∀ u rest,
     Forall (λ a, Ctype.isword a = true) u → u ≠ [] →
     word_ends rest = true → joins rest = false →
     Regex.tokens_from (S fuel) lexRx pos (u ++ rest)
       = string_of_list_ascii u
           :: Regex.tokens_from fuel lexRx (pos + length u) rest) ∧
  (∀ u sep v rest,
     Forall (λ a, Ctype.isword a = true) u → u ≠ [] →
     sep = "-"%char ∨ sep = "'"%char →
     Forall (λ a, Ctype.isword a = true) v → v ≠ [] →
     word_ends rest = true →
     Regex.tokens_from (S fuel) lexRx pos ((u ++ sep :: v) ++ rest)
       = string_of_list_ascii (u ++ sep :: v)
           :: Regex.tokens_from fuel lexRx
                (pos + length (u ++ sep :: v)) rest) ∧
  (∀ rest,
     Regex.tokens_from (S fuel) lexRx pos
       ("."%char :: "."%char :: "."%char :: rest)
       = "..." :: Regex.tokens_from fuel lexRx (pos + 3) rest) ∧
  (∀ c rest,
     Ctype.ispunct c = true → Ctype.isword c = false →
     three_dots (c :: rest) = false →
     Regex.tokens_from (S fuel) lexRx pos (c :: rest)
       = String c EmptyString
           :: Regex.tokens_from fuel lexRx (pos + 1) rest) ∧
  (∀ chunk,
     chunk ≠ EmptyString →
     Forall (λ a, Ctype.isword a = true) (list_ascii_of_string chunk) →
     lex_chunk chunk = [chunk]).
Proof.
  assert (∀ f p, Regex.tokens_from f lexRx p [] = []) as Hend.
  { intros [|f] p; [done|].
    cbn [Regex.tokens_from Regex.regex_search].
    by rewrite lexRx_ends_nil. }
  assert (∀ f p u rest,
    Forall (λ a, Ctype.isword a = true) u → u ≠ [] →
    word_ends rest = true → joins rest = false →
    Regex.tokens_from (S f) lexRx p (u ++ rest)
      = string_of_list_ascii u
          :: Regex.tokens_from f lexRx (p + length u) rest) as Hword.
  { intros f p u rest Hu Hne Hends Hjoin.
    destruct (lexRx_ends_word p u rest) as [tl Htl]; [done..|].
    by eapply tokens_from_head. }
  split_and!.
  - apply Hend.
  - intros a rest Hw Hp.
    assert (Regex.ends lexRx (pos, a :: rest) = []) as He.
    { apply ends_blocked; [done|]. by rewrite consumes_lexRx, Hw, Hp. }
    cbn [Regex.tokens_from Regex.regex_search]. rewrite He.
    destruct (Regex.regex_search lexRx (S pos) rest) as [[k n]|]; [|done].
    cbn [drop]. do 2 f_equal. lia.
  - apply Hword.
  - intros u sep v rest Hu Hune Hsep Hv Hvne Hends.
    destruct (lexRx_ends_compound pos u sep v rest) as [tl Htl]; [done..|].
    by eapply tokens_from_head.
  - intros rest.
    destruct (lexRx_ends_ellipsis pos rest) as [tl Htl].
    apply (tokens_from_head lexRx fuel pos ["."%char; "."%char; "."%char]
             rest tl).
    cbn [app length]. rewrite Htl.
    by replace (pos + 3)%nat with (S (S (S pos))) by lia.
  - intros c rest Hp Hw Hdots.
    apply (tokens_from_head lexRx fuel pos [c] rest []).
    cbn [app length]. rewrite lexRx_ends_punct by done.
    by replace (pos + 1)%nat with (S pos) by lia.
  - intros chunk Hne Hu. unfold lex_chunk, Regex.sregex_tokens.
    rewrite <-length_list_ascii_of_string.
    rewrite <-(string_of_list_ascii_of_string chunk) at 3.
    assert (list_ascii_of_string chunk ≠ []) as Hne'.
    { intros E. apply Hne.
      by rewrite <-(string_of_list_ascii_of_string chunk), E. }
    destruct (list_ascii_of_string chunk) as [|a u] eqn:E; [done|].
    cbn [length].
    rewrite <-(app_nil_r (a :: u)) at 1.
    rewrite Hword by done. by rewrite Hend.
Qed.

(** ** Punctuation *)

Lemma punctRx_search_later pos s :
  Regex.regex_search punctRx (S pos) s = None.
Proof.
  revert pos. induction s as [|a t IH]; intros pos; [done|].
  cbn [Regex.regex_search].
  change (Regex.ends punctRx (S pos, a :: t)) with (@nil Regex.cursor).
  by rewrite IH.
Qed.

Lemma ends_anchored_shape (p q : ascii → bool) s :
  Regex.ends
    (Regex.Cat Regex.Bol
       (Regex.Cat
          (Regex.Alt
             (Regex.Cat (Regex.Bracket p)
                (Regex.Cat (Regex.Bracket p) (Regex.Bracket p)))
             (Regex.Bracket q))
          Regex.Eol))
    (0%nat, s) ≠ [] ↔
  (∃ a b c, s = [a; b; c] ∧ p a = true ∧ p b = true ∧ p c = true) ∨
  (∃ a, s = [a] ∧ q a = true).
Proof.
  assert (∀ P : Prop, ([] : list Regex.cursor) ≠ [] → P) as Hno by done.
  destruct s as [|a [|b [|c [|d s]]]];
    [|destruct (p a) eqn:Ha, (q a) eqn:Hq
     |destruct (p a) eqn:Ha, (q a) eqn:Hq, (p b) eqn:Hb
     |destruct (p a) eqn:Ha, (q a) eqn:Hq, (p b) eqn:Hb, (p c) eqn:Hc
     |destruct (p a) eqn:Ha, (q a) eqn:Hq, (p b) eqn:Hb, (p c) eqn:Hc];
    cbn;
    repeat (match goal with H : _ = _ |- _ => rewrite H end; cbn);
    (split;
     [first [exact (Hno _)
            |intros _; first [left; by eexists _, _, _|right; by eexists]]
     |intros [(a0 & b0 & c0 & E & ? & ? & ?)|(a0 & E & ?)];
      simplify_eq; congruence]).
Qed.

(** X11: the lexemes after which, and before which, no space is written: the
    test holds exactly of the three periods and of the strings made of a
    single punctuation character, the underscore among them. *)
Theorem is_punctation_iff lex :
  is_punctation lex = true ↔
  lex = "..." ∨ ∃ a, lex = String a EmptyString ∧ Ctype.ispunct a = true.
Proof.
  assert (is_punctation lex = true ↔
          Regex.ends punctRx (0%nat, list_ascii_of_string lex) ≠ []) as ->.
  { unfold is_punctation.
    destruct (list_ascii_of_string lex) as [|a t]; cbn [Regex.regex_search].
    - by destruct (Regex.ends punctRx (0%nat, [])).
    - rewrite punctRx_search_later.
      by destruct (Regex.ends punctRx (0%nat, a :: t)). }
  unfold punctRx, dot. rewrite ends_anchored_shape. split.
  - intros [(a & b & c & E & Ha & Hb & Hc)|(a & E & Ha)].
    + apply Ascii.eqb_eq in Ha, Hb, Hc. subst a b c. left.
      rewrite <-(string_of_list_ascii_of_string lex), E. done.
    + right. exists a. split; [|done].
      rewrite <-(string_of_list_ascii_of_string lex), E. done.
  - intros [->|(a & -> & Ha)]; [left|right].
    + by exists "."%char, "."%char, "."%char.
    + by exists a.
Qed.

(** ** Chunks *)

Lemma split_ws_spec cur s :
  Forall (λ a, Ctype.isspace a = false) cur →
  Forall (λ c, c ≠ EmptyString ∧
               Forall (λ a, Ctype.isspace a = false)
                 (list_ascii_of_string c))
    (split_ws cur s) ∧
  concat (list_ascii_of_string <$> split_ws cur s)
    = rev cur ++ filter (λ a, Ctype.isspace a = false) s ∧
  (split_ws cur s = [] ↔
   cur = [] ∧ Forall (λ a, Ctype.isspace a = true) s).
Proof.
  assert (∀ cur : list ascii, cur ≠ [] →
            string_of_list_ascii (rev cur) ≠ EmptyString) as Hne.
  { intros l Hl E. apply (f_equal list_ascii_of_string) in E.
    rewrite list_ascii_of_string_of_list_ascii in E. cbn in E.
    apply (f_equal (@rev ascii)) in E. rewrite rev_involutive in E.
    done. }
  revert cur. induction s as [|c t IH]; intros cur Hcur; cbn [split_ws].
  - destruct cur as [|a cur]; [by cbn; split_and!|].
    cbn [fmap list_fmap concat]. rewrite filter_nil, !app_nil_r.
    rewrite list_ascii_of_string_of_list_ascii. split_and!; [|done|naive_solver].
    repeat constructor; [by apply Hne|].
    rewrite list_ascii_of_string_of_list_ascii. by apply Forall_rev.
  - rewrite filter_cons. destruct (Ctype.isspace c) eqn:Hc.
    + rewrite decide_False by congruence.
      destruct (IH [] (Forall_nil_2 _)) as (IH1 & IH2 & IH3).
      destruct cur as [|a cur].
      * split_and!; [done|done|]. rewrite IH3. split.
        -- intros [_ Ht]. split; [done|by constructor].
        -- intros [_ Ht]. split; [done|]. by apply Forall_cons in Ht as [_ ?].
      * cbn [fmap list_fmap concat].
        rewrite list_ascii_of_string_of_list_ascii, IH2.
        split_and!; [|done|naive_solver].
        constructor; [|done]. split; [by apply Hne|].
        rewrite list_ascii_of_string_of_list_ascii. by apply Forall_rev.
    + rewrite decide_True by done.
      destruct (IH (c :: cur)) as (IH1 & IH2 & IH3); [by constructor|].
      split_and!; [done| |].
      * rewrite IH2. cbn [rev]. by rewrite <-app_assoc.
      * rewrite IH3. split; [naive_solver|].
        intros [_ [Hc' _]%Forall_cons]. congruence.
Qed.

Lemma split_ws_app cur s1 sp s2 :
  Ctype.isspace sp = true →
  split_ws cur (s1 ++ sp :: s2) = split_ws cur s1 ++ split_ws [] s2.
Proof.
  intros Hsp. revert cur. induction s1 as [|c s1 IH]; intros cur;
    cbn [app split_ws].
  - rewrite Hsp. by destruct cur.
  - destruct (Ctype.isspace c); [|apply IH].
    destruct cur; by rewrite IH.
Qed.

(** X12: the chunks of a text: none is empty and none holds a whitespace
    character; put end to end they are the text without its whitespace;
    there is none exactly when the text is nothing but whitespace; and
    two texts joined by a whitespace character have the chunks of the
    first followed by the chunks of the second. *)
Theorem chunks_of_text text :
  Forall (λ c, c ≠ EmptyString ∧
               Forall (λ a, Ctype.isspace a = false)
                 (list_ascii_of_string c))
    (chunks text) ∧
  concat (list_ascii_of_string <$> chunks text)
    = filter (λ a, Ctype.isspace a = false) (list_ascii_of_string text) ∧
  (chunks text = [] ↔
   Forall (λ a, Ctype.isspace a = true) (list_ascii_of_string text)) ∧
  (∀ sp text', Ctype.isspace sp = true →
     chunks (text +:+ String sp text') = chunks text ++ chunks text').
Proof.
  unfold chunks.
  destruct (split_ws_spec [] (list_ascii_of_string text)) as (H1 & H2 & H3);
    [done|].
  split_and!; [done|done|naive_solver|].
  intros sp text' Hsp. rewrite list_ascii_of_string_app.
  by apply split_ws_app.
Qed.

(** ** The input phase as a whole *)

Section InputOutcome.
Context {G : Type} `{!Engine G}.
Implicit Types (st : @input_state G) (d : Distr G) (g : G).

Lemma add_all_engine calls d :
  m_gen (add_all calls d) = m_gen d ∧
  m_uniform_sitribution_states (add_all calls d)
    = m_uniform_sitribution_states d.
Proof.
  induction calls as [|c calls IH] using rev_ind; [done|].
  by rewrite add_all_snoc.
Qed.

Lemma read_chunks_pointers cs st st' :
  read_chunks cs st = Ok st' →
  let ls := concat (lex_chunk <$> cs) in
  prevChunkLastLexStrPtr st'
    = from_option Some (prevChunkLastLexStrPtr st) (last ls) ∧
  lastLexStrPtr st' = from_option Some (lastLexStrPtr st) (last ls).
Proof.
  revert st. induction cs as [|c cs IH]; intros st; cbn [read_chunks].
  { by intros [= <-]. }
  destruct (lex_chunk c) as [|tok toks] eqn:Ec; [done|].
  rewrite chunk_loop_Ok by done. cbv zeta. intros [H1 H2]%IH.
  cbn [prevChunkLastLexStrPtr lastLexStrPtr] in H1, H2.
  cbn [fmap list_fmap concat]. rewrite Ec, last_app, H1, H2.
  destruct (proj2 (last_is_Some (tok :: toks))) as [l Hl]; [done|].
  rewrite Hl. by destruct (last (concat (lex_chunk <$> cs))).
Qed.

(** X13: how the input phase ends. It never calls [abort ()]. It completes
    exactly when every chunk holds a word character or a punctuation
    character; the engine is then as it was seeded, no distribution is
    cached, and both pointers kept across the chunks point to the last
    lexeme of the text, or are null when the text has no chunk. Its
    behaviour is undefined exactly when some chunk holds no such
    character. *)
Theorem input_phase_outcome text g :
  match main_input text g with
  | Ok st =>
      Forall (λ c, Exists (λ a, Ctype.isword a || Ctype.ispunct a = true)
                     (list_ascii_of_string c)) (chunks text) ∧
      m_gen (distr st) = g ∧
      m_uniform_sitribution_states (distr st) = ∅ ∧
      prevChunkLastLexStrPtr st = last (lexemes text) ∧
      lastLexStrPtr st = last (lexemes text)
  | Abort => False
  | Undefined =>
      Exists (λ c, Forall (λ a, Ctype.isword a || Ctype.ispunct a = false)
                     (list_ascii_of_string c)) (chunks text)
  end.
Proof.
  destruct (main_input text g) as [st| |] eqn:Hrun.
  - pose proof (main_input_Ok _ _ _ Hrun) as [Hall Hd].
    destruct (add_all_engine (adjacent kStartingLex (lexemes text))
                (Distr_init g)) as [Hg Hc].
    apply read_chunks_pointers in Hrun as [H1 H2]. rewrite Hd.
    split_and!; [|done|done|..].
    + eapply Forall_impl; [exact Hall|]. intros c Hc'. cbv beta in Hc'.
      rewrite lex_chunk_nil in Hc'.
      apply not_Forall_Exists in Hc'; [|intros a; apply _].
      eapply Exists_impl; [exact Hc'|]. intros a Ha. unfold compose in Ha.
      by destruct (_ || _).
    + rewrite H1.
      change (concat (lex_chunk <$> chunks text)) with (lexemes text).
      by destruct (last _).
    + rewrite H2.
      change (concat (lex_chunk <$> chunks text)) with (lexemes text).
      by destruct (last _).
  - unfold main_input in Hrun.
    destruct (read_chunks_spec (chunks text) (input_init g))
      as [[_ (st' & Hrun' & _)]|[_ Hrun']]; congruence.
  - unfold main_input in Hrun.
    destruct (read_chunks_spec (chunks text) (input_init g))
      as [[_ (st' & Hrun' & _)]|[Hex _]]; [congruence|].
    eapply Exists_impl; [exact Hex|]. intros c. by rewrite lex_chunk_nil.
Qed.

(** X14: the early return of [main]: after an input phase that completed, the
    program returns without generating exactly when the text holds
    nothing but whitespace. *)
Theorem early_return_iff_blank text g st fuel :
  main_input text g = Ok st →
  main_generate fuel (distr st) = None ↔
  Forall (λ a, Ctype.isspace a = true) (list_ascii_of_string text).
Proof.
  intros Hrun.
  assert (main_generate fuel (distr st) = None ↔
          uniqueLexCount (distr st) = 0%nat) as ->.
  { unfold main_generate.
    destruct (Nat.eqb_spec (uniqueLexCount (distr st)) 0) as [|Hn]; [done|].
    destruct (nextLex _ _) as [[?| |] ?]; by split. }
  rewrite (main_input_no_lexeme _ _ _ Hrun).
  destruct (split_ws_spec [] (list_ascii_of_string text)) as (_ & _ & H3);
    [done|].
  fold (chunks text) in H3.
  assert (chunks text = [] ↔
          Forall (λ a, Ctype.isspace a = true) (list_ascii_of_string text))
    as <- by naive_solver.
  apply main_input_Ok in Hrun as [Hall _]. unfold lexemes.
  destruct (chunks text) as [|c cs]; [done|].
  apply Forall_cons in Hall as [Hc _]. cbn [map concat].
  split; [|done]. intros [Hnil _]%app_eq_nil. done.
Qed.

End InputOutcome.

(** ** The invariant of the class *)

Section InvariantFacts.
Context {G : Type} `{!Engine G}.
Implicit Types (d : Distr G) (g : G).

Lemma nextLex_model curLex d :
  m_model (nextLex curLex d).2 = try_emplace curLex [] (m_model d).
Proof.
  unfold nextLex. cbv zeta.
  repeat (match goal with
          | |- context [if ?b then _ else _] => destruct b
          | |- context [match ?x with Some _ => _ | None => _ end] =>
              destruct x
          | |- context [let '(_, _) := ?x in _] => destruct x
          end; try done).
Qed.

Lemma closed_try_emplace k m : closed m → closed (try_emplace k [] m).
Proof.
  intros Hm k' S x. rewrite !lookup_try_emplace.
  destruct (m !! k') as [S'|] eqn:Hk'.
  - intros [= <-] Hx. destruct (Hm _ _ _ Hk' Hx) as [Sx ->]. eauto.
  - case_decide; [|done]. by intros [= <-] ?%elem_of_nil.
Qed.

Lemma reachable_closed d : reachable d → closed (m_model d).
Proof.
  induction 1 as [g|curLex lex d _ IH|curLex d _ IH].
  - apply closed_empty.
  - by apply closed_model_add.
  - rewrite nextLex_model. by apply closed_try_emplace.
Qed.

(** X15: no pointer dangles. In every state calls of [add] and [nextLex] can
    produce from an empty object, each pointer stored in a successor
    sequence points to a key of the model and each cached distribution has
    the bounds [0] and its key; and the pointer a further call of [add] or
    [nextLex] hands out points to a key of the model that call leaves. *)
Theorem Distr_invariant d :
  reachable d →
  closed (m_model d) ∧
  cache_wf (m_uniform_sitribution_states d) ∧
  (∀ curLex lex,
     is_Some (m_model (add curLex lex d).2 !! (add curLex lex d).1)) ∧
  (∀ curLex lex,
     (nextLex curLex d).1 = Ok lex →
     is_Some (m_model (nextLex curLex d).2 !! lex)).
Proof.
  intros Hd. pose proof (reachable_closed d Hd) as Hcl.
  split_and!; [done|by apply reachable_cache_wf|..].
  - intros curLex lex. cbn [add fst snd set_model m_model].
    rewrite lookup_model_add. repeat case_decide; eauto; subst;
      by destruct (m_model d !! _).
  - intros curLex lex Hlex.
    destruct (nextLex curLex d) as [o d'] eqn:Hnext. cbn [fst snd] in *.
    subst o. pose proof Hnext as (S & Hk & Hin & Hm)%nextLex_Ok_inv.
    rewrite Hm. by eapply Hcl.
Qed.

End InvariantFacts.

(** ** Generation without undefined behaviour *)

Section DefinedFacts.
Context {G : Type} `{!Engine G}.
Implicit Types (st : @gen_state G) (d : Distr G) (g : G).

Lemma length_adjacent prev ls : length (adjacent prev ls) = length ls.
Proof.
  revert prev. induction ls as [|l ls IH]; intros prev; [done|].
  cbn [adjacent length]. by rewrite IH.
Qed.

Lemma length_successors_in k calls :
  (length (successors_in k calls) ≤ length calls)%nat.
Proof. unfold successors_in. rewrite length_fmap. apply length_filter. Qed.

(** A draw from a sequence of at most [2^31] successors, in a state the
    methods can produce, has a defined result. *)
Lemma nextLex_defined curLex d S :
  reachable d → m_model d !! curLex = Some S →
  Z.of_nat (length S) ≤ 2 ^ 31 →
  (nextLex curLex d).1 ≠ Undefined.
Proof.
  intros Hd Hk Hlen. destruct S as [|lex S].
  { by rewrite (nextLex_exhausted _ _ Hk). }
  rewrite (nextLex_fresh_distribution curLex d (lex :: S))
    by (done || by apply reachable_cache_wf).
  cbv zeta.
  set (dd := {| dist_a := 0; dist_b := Z.of_nat (length (lex :: S)) - 1 |}).
  pose proof (uniform_int_range dd (m_gen d)) as Hrange.
  cbn [dist_a dist_b dd length] in Hrange.
  destruct (vector_at_in_range (lex :: S) (uniform_int dd (m_gen d)).1)
    as [x Hx]; [cbn [length]; lia|].
  by rewrite Hx.
Qed.

Lemma gen_step_Undefined st :
  gen_step st = RunUndefined →
  (nextLex (g_lex st) (g_distr st)).1 = Undefined ∨
  g_i st = INT_MAX ∨ g_i st + 1 = INT_MAX.
Proof.
  unfold gen_step. destruct (nextLex _ _) as [[lex| |] d]; [|done|by left].
  destruct (Z.eqb_spec (g_i st) INT_MAX); [by right; left|].
  destruct (_ && _); [|done].
  destruct (Z.eqb_spec (g_i st + 1) INT_MAX); [by right; right|done].
Qed.

Lemma gen_loop_defined m fuel st :
  closed m →
  (∀ k S, m !! k = Some S → Z.of_nat (length S) ≤ 2 ^ 31) →
  m_model (g_distr st) = m → reachable (g_distr st) →
  is_Some (m !! g_lex st) →
  0 ≤ g_i st → g_i st + Z.of_nat fuel < INT_MAX →
  gen_loop fuel st ≠ RunUndefined.
Proof.
  intros Hcl Hlen. revert st.
  induction fuel as [|fuel IH]; intros st Hm Hd [S Hk] Hi0 Hi;
    cbn [gen_loop]; [done|].
  destruct (gen_step st) as [st1|st1|out d1|] eqn:Hstep; [|done|done|].
  - pose proof Hstep as (lex & d' & Hnext & _ & _ & ->)%gen_step_Running.
    destruct (walk_step m st lex d' Hcl Hm Hnext) as (Hm' & Hlex & _).
    apply IH; cbn [g_distr g_lex g_i]; [done| |done|lia..].
    replace d' with (nextLex (g_lex st) (g_distr st)).2 by by rewrite Hnext.
    by constructor.
  - apply gen_step_Undefined in Hstep as [Hu|[Hu|Hu]]; [|lia..].
    rewrite <-Hm in Hk.
    by eapply nextLex_defined in Hu; [|done|done|eapply Hlen; by rewrite <-Hm].
Qed.

(** X16: the generator on the model built from a text of at most [2^31]
    lexemes, in fewer than [INT_MAX] turns of its loop: its behaviour is
    defined. No draw fails, no index is out of range, and the counter
    does not overflow. *)
Theorem generation_is_defined text g (st : input_state) fuel :
  main_input text g = Ok st →
  Z.of_nat (length (lexemes text)) ≤ 2 ^ 31 →
  Z.of_nat fuel < INT_MAX →
  main_generate fuel (distr st) ≠ Some RunUndefined.
Proof.
  intros Hin Hlen Hfuel. set (m := m_model (distr st)).
  assert (closed m) as Hcl by by eapply main_input_closed.
  assert (reachable (distr st)) as Hd.
  { apply main_input_Ok in Hin as [_ ->].
    apply reachable_add_all. constructor. }
  assert (∀ k S, m !! k = Some S → Z.of_nat (length S) ≤ 2 ^ 31) as Hbound.
  { intros k S. unfold m. rewrite (main_input_lookup _ _ _ k Hin).
    case_decide; [|done]. intros [= <-].
    pose proof (length_successors_in k
                  (adjacent kStartingLex (lexemes text))) as Hle.
    rewrite length_adjacent in Hle. lia. }
  unfold main_generate.
  destruct (Nat.eqb_spec (uniqueLexCount (distr st)) 0) as [|Hn]; [done|].
  destruct (nextLex kStartingLex (distr st)) as [[lex| |] d'] eqn:Hnext;
    [|done|].
  - intros [= Hrun]. revert Hrun.
    pose proof Hnext as (S & Hk & HS & Hm)%nextLex_Ok_inv.
    apply (gen_loop_defined m); cbn [g_distr g_lex g_i];
      [done|done|done| |by eapply Hcl|lia|lia].
    replace d' with (nextLex kStartingLex (distr st)).2 by by rewrite Hnext.
    by constructor.
  - intros _.
    destruct (lexemes text) as [|first rest] eqn:Hl.
    { by apply (main_input_no_lexeme _ _ _ Hin) in Hl. }
    destruct (main_input_sentinel _ _ _ _ _ Hin Hl) as [S HS].
    eapply (nextLex_defined kStartingLex (distr st)); [done|done| |].
    + by eapply Hbound.
    + by rewrite Hnext.
Qed.

End DefinedFacts.

(** ** Sampling and linking where the program is defined *)

Section DefinedCases.
Context {G : Type} `{!Engine G}.
Implicit Types (d : Distr G) (g : G).

(** X17: for a [Distr] object in a state its methods can produce
    and a lexeme whose successor sequence [S] is not empty and has at most
    [2^31] entries, [nextLex] applies to the engine the uniform
    distribution on the indices from [0] to [|S| - 1], whatever the cache
    of distribution objects holds, and returns the entry of [S] at the
    index drawn; so a lexeme that occurs [k] times in [S] is returned
    with probability [k / |S|]. *)
Theorem nextLex_samples_by_frequency d curLex S :
  reachable d →
  m_model d !! curLex = Some S → S ≠ [] →
  Z.of_nat (length S) ≤ 2 ^ 31 →
  let dd := {| dist_a := 0; dist_b := Z.of_nat (length S) - 1 |} in
  let idx := (uniform_int dd (m_gen d)).1 in
  0 ≤ idx < Z.of_nat (length S) ∧
  (∃ lex, S !! Z.to_nat idx = Some lex ∧ (nextLex curLex d).1 = Ok lex) ∧
  m_gen (nextLex curLex d).2 = (uniform_int dd (m_gen d)).2 ∧
  support dd = seqZ 0 (Z.of_nat (length S)) ∧
  ∀ x, Pr dd (λ i, bool_decide (vector_at S i = Some x)) =
       QArith_base.Qmake (Z.of_nat (length (filter (λ y, y = x) S)))
         (Pos.of_nat (length S)).
Proof.
  intros Hd%reachable_cache_wf Hk Hne Hlen dd idx.
  assert (0 < Z.of_nat (length S)) by (destruct S; [done|simpl; lia]).
  assert (0 ≤ idx < Z.of_nat (length S)) as Hidx.
  { pose proof (uniform_int_range dd (m_gen d)) as Hr.
    subst idx dd. cbn [dist_a dist_b] in Hr. lia. }
  assert (support dd = seqZ 0 (Z.of_nat (length S))) as Hsupp.
  { unfold support, dd. cbn [dist_a dist_b]. f_equal. lia. }
  rewrite (nextLex_fresh_distribution _ _ _ Hd Hk Hne Hlen). cbv zeta.
  fold dd idx. destruct (vector_at_in_range S idx Hidx) as [lex Hlex].
  rewrite Hlex. split_and!; [lia|lia| |done|done|].
  - exists lex. split; [|done]. unfold vector_at in Hlex.
    by destruct (Z.ltb_spec idx 0); [lia|].
  - intros x. unfold Pr. rewrite Hsupp, count_indices, length_seqZ.
    by rewrite Nat2Z.id.
Qed.

(** X18: on every text each of whose chunks has a lexeme, the
    input loop completes, and the calls of [add] it makes give every
    lexeme of the text, in order, the predecessor of the linking rule: the
    starting lexeme for the first lexeme of the text, the lexeme before it
    in its chunk for a lexeme that is not the first of its chunk, and the
    last lexeme of the chunk before for the first lexeme of a later chunk,
    which is the starting lexeme again when that last lexeme is ".". So
    the predecessors, in order, are the starting lexeme and then the
    lexemes of the text but the last. *)
Theorem predecessors_follow_linking_rule text g :
  Forall (λ c, lex_chunk c ≠ []) (chunks text) →
  ∃ st,
    main_input text g = Ok st ∧
    add_calls st = linked_pairs kStartingLex (lex_chunk <$> chunks text) ∧
    (add_calls st).*2 = lexemes text ∧
    (add_calls st).*1 =
      take (length (lexemes text)) (kStartingLex :: lexemes text) ∧
    distr st = add_all (add_calls st) (Distr_init g).
Proof.
  intros [st Hin]%(main_input_completes text g). exists st.
  pose proof (main_input_calls _ _ _ Hin) as Hc.
  apply main_input_Ok in Hin as Hd. destruct Hd as [_ Hd].
  rewrite linked_pairs_adjacent, Hc, adjacent_snd, adjacent_fst.
  by rewrite Hd.
Qed.

End DefinedCases.

(** ** Concrete runs of the further properties

    Where the engine replays an empty record, every draw yields the first
    successor. *)

(** The text "a b a c": "a" is followed by "b" and by "c". *)
Lemma model_is_successor_table_witness :
  ∃ st,
    main_input "a b a c" ([] : list Z) = Ok st ∧
    m_model (distr st) !! "a" = Some ["b"; "c"] ∧
    m_model (distr st) !! "d" = None.
Proof.
  destruct (main_input "a b a c" ([] : list Z)) as [st| |] eqn:Hin;
    [|vm_compute in Hin; discriminate..].
  exists st. split; [done|].
  pose proof (model_is_successor_table _ _ _ "a" Hin) as Ha.
  pose proof (model_is_successor_table _ _ _ "d" Hin) as Hd.
  cbv zeta in Ha, Hd. destruct Ha as [-> _], Hd as [-> _].
  split; by vm_compute.
Defined.

(** The text "a b": "b" ends it and occurs nowhere before. *)
Lemma dead_end_is_last_lexeme_witness :
  ∃ st,
    main_input "a b" ([] : list Z) = Ok st ∧
    m_model (distr st) !! "b" = Some [].
Proof.
  destruct (main_input "a b" ([] : list Z)) as [st| |] eqn:Hin;
    [|vm_compute in Hin; discriminate..].
  exists st. split; [done|].
  apply (proj1 (dead_end_is_last_lexeme _ _ _ "b" Hin)).
  split; [by vm_compute|]. apply (bool_decide_unpack _). by vm_compute.
Defined.

(** Three turns on the model of "Hello, world.": four lexemes are drawn,
    three are written and the fourth is about to be. *)
Lemma output_is_layout_of_lexemes_witness :
  ∃ st0 st,
    main_input "Hello, world." ([] : list Z) = Ok st0 ∧
    main_generate 3 (distr st0) = Some (Running st) ∧
    draws 4 kStartingLex (distr st0) = ["Hello"; ","; "world"; "."] ∧
    g_out st ++ [OLex (g_lex st)] = format ["Hello"; ","; "world"; "."] ∧
    render (g_out st ++ [OLex (g_lex st)]) = "Hello, world.".
Proof.
  destruct (main_input "Hello, world." ([] : list Z)) as [st0| |] eqn:Hin;
    [|vm_compute in Hin; discriminate..].
  exists st0. vm_compute in Hin. injection Hin as <-.
  match goal with |- context [main_generate 3 ?d] => set (d0 := d) end.
  destruct (main_generate 3 d0) as [[st|st|out d|]|] eqn:Hgen;
    try (vm_compute in Hgen; discriminate).
  exists st.
  destruct (output_is_layout_of_lexemes _ _ _ Hgen) as (_ & _ & Hout).
  assert (draws 4 kStartingLex d0 = ["Hello"; ","; "world"; "."]) as Hd
    by by vm_compute.
  rewrite Hout, Hd. split_and!; reflexivity.
Defined.

Lemma reported_count_is_lexemes_written_witness :
  ∃ st0 st,
    main_input "Hello, world." ([] : list Z) = Ok st0 ∧
    main_generate 3 (distr st0) = Some (Running st) ∧
    out_lexemes (g_out st) = ["Hello"; ","; "world"] ∧
    g_i st = 3.
Proof.
  destruct (main_input "Hello, world." ([] : list Z)) as [st0| |] eqn:Hin;
    [|vm_compute in Hin; discriminate..].
  exists st0. vm_compute in Hin. injection Hin as <-.
  match goal with |- context [main_generate 3 ?d] => set (d0 := d) end.
  destruct (main_generate 3 d0) as [[st|st|out d|]|] eqn:Hgen;
    try (vm_compute in Hgen; discriminate).
  exists st. pose proof (reported_count_is_lexemes_written _ _ _ Hgen) as Hi.
  cbv beta iota in Hi. rewrite Hi.
  vm_compute in Hgen. injection Hgen as <-.
  split_and!; reflexivity.
Defined.

Lemma generated_neighbours_are_read_witness :
  ∃ st0 r,
    main_input "Hello, world." ([] : list Z) = Ok st0 ∧
    main_generate 3 (distr st0) = Some r ∧
    adjacent kStartingLex (run_lexemes r)
      ⊆ adjacent kStartingLex (lexemes "Hello, world.").
Proof.
  destruct (main_input "Hello, world." ([] : list Z)) as [st0| |] eqn:Hin;
    [|vm_compute in Hin; discriminate..].
  destruct (main_generate 3 (distr st0)) as [r|] eqn:Hgen.
  - exists st0, r. split_and!; [done..|].
    exact (generated_neighbours_are_read _ _ _ _ _ Hin Hgen).
  - vm_compute in Hin. injection Hin as <-. vm_compute in Hgen.
    discriminate.
Defined.

(** The text "Hello, world." ends with a period, which is the starting
    lexeme. *)
Lemma generation_never_aborts_witness :
  ∃ st0,
    main_input "Hello, world." ([] : list Z) = Ok st0 ∧
    ∀ fuel out d, main_generate fuel (distr st0) ≠ Some (Aborted out d).
Proof.
  destruct (main_input "Hello, world." ([] : list Z)) as [st0| |] eqn:Hin;
    [|vm_compute in Hin; discriminate..].
  exists st0. split; [done|].
  apply (generation_never_aborts _ _ _ Hin).
  intros l Hl. vm_compute in Hl. injection Hl as <-.
  apply (bool_decide_unpack _). by vm_compute.
Defined.

(** A text of two spaces. *)
Lemma early_return_iff_blank_witness :
  ∃ st,
    main_input "  " ([] : list Z) = Ok st ∧
    main_generate 5 (distr st) = None.
Proof.
  destruct (main_input "  " ([] : list Z)) as [st| |] eqn:Hin;
    [|vm_compute in Hin; discriminate..].
  exists st. split; [done|].
  apply (proj2 (early_return_iff_blank _ _ _ 5%nat Hin)).
  by repeat constructor.
Defined.

(** An object after two calls of [add] and a draw. *)
Lemma Distr_invariant_witness :
  let d := (nextLex "a"
              (add_all [("a", "b"); ("b", "a")]
                 (Distr_init ([] : list Z)))).2 in
  reachable d ∧
  closed (m_model d) ∧
  cache_wf (m_uniform_sitribution_states d) ∧
  m_uniform_sitribution_states d !! 0 = Some {| dist_a := 0; dist_b := 0 |}.
Proof.
  intros d.
  assert (reachable d) as Hd.
  { apply reachable_nextLex, reachable_add_all, reachable_init. }
  destruct (Distr_invariant d Hd) as (Hcl & Hwf & _).
  split_and!; [done..|]. by vm_compute.
Defined.

Lemma generation_is_defined_witness :
  ∃ st0,
    main_input "Hello, world." ([] : list Z) = Ok st0 ∧
    main_generate 600 (distr st0) ≠ Some RunUndefined.
Proof.
  destruct (main_input "Hello, world." ([] : list Z)) as [st0| |] eqn:Hin;
    [|vm_compute in Hin; discriminate..].
  exists st0. split; [done|].
  apply (generation_is_defined _ _ _ _ Hin); by vm_compute.
Defined.

(** A model in which "A" was followed by "X" twice and by "Y" once; the
    engine yields the index 1. *)
Lemma nextLex_samples_by_frequency_witness :
  let d := add_all [("A", "X"); ("A", "X"); ("A", "Y")]
             (Distr_init [4]) in
  reachable d ∧
  m_model d !! "A" = Some ["X"; "X"; "Y"] ∧
  (nextLex "A" d).1 = Ok "X" ∧
  Pr {| dist_a := 0; dist_b := 2 |}
     (λ i, bool_decide (vector_at ["X"; "X"; "Y"] i = Some "X"))
    = QArith_base.Qmake 2 3 ∧
  Pr {| dist_a := 0; dist_b := 2 |}
     (λ i, bool_decide (vector_at ["X"; "X"; "Y"] i = Some "Y"))
    = QArith_base.Qmake 1 3.
Proof.
  intros d.
  assert (reachable d) as Hd by apply reachable_add_all, reachable_init.
  assert (m_model d !! "A" = Some ["X"; "X"; "Y"]) as Hk
    by (vm_compute; reflexivity).
  destruct (nextLex_samples_by_frequency d "A" ["X"; "X"; "Y"] Hd Hk)
    as (_ & (lex & Hlex & Hnext) & _ & _ & HPr);
    [done|by vm_compute|].
  vm_compute in Hlex. injection Hlex as <-.
  split_and!; [done|done|done|exact (HPr "X")|exact (HPr "Y")].
Defined.

(** The text "Hi, you. Go on". *)
Lemma predecessors_follow_linking_rule_witness :
  ∃ st,
    main_input "Hi, you. Go on" ([] : list Z) = Ok st ∧
    chunks "Hi, you. Go on" = ["Hi,"; "you."; "Go"; "on"] ∧
    add_calls st =
      [ (kStartingLex, "Hi"); ("Hi", ","); (",", "you"); ("you", ".");
        (".", "Go"); ("Go", "on") ].
Proof.
  destruct (predecessors_follow_linking_rule "Hi, you. Go on" ([] : list Z))
    as (st & Hin & Hcalls & _).
  { apply (bool_decide_unpack _). by vm_compute. }
  exists st. by split_and!.
Defined.
